(** * zip-lib: the extraction engine of [src/unzip.ts]

    A shallow embedding of class [Unzip] and of the closures that
    [Unzip.extract] installs on the archive reader, followed by the
    properties of the engine that the specification states.

    The engine is event driven.  Its synchronous pieces ([modeFromEntry],
    [symlinkToFile], [cancel], [closeZip], the bodies of the listeners) are
    functions on an explicit state; every point where the TypeScript code
    awaits a promise or waits for an emitter is a place where the outside
    world (yauzl, the filesystem helpers, the streams, the caller) delivers
    an [Event], and [step] runs the continuation that the event wakes up.
    A continuation runs to its next [await] in one step: JavaScript does not
    interleave anything with it.

    The file has three parts: the engine, the properties stated about it,
    and their proofs. *)

From Stdlib Require Import ZArith Lia Bool String Ascii.
From stdpp Require Import base list.

(** ** JavaScript numbers, as far as [modeFromEntry] uses them *)

Module JS.
Local Open Scope Z_scope.

(** [ToInt32] of an integral number: wrap into [-2^31, 2^31). *)
Definition ToInt32 (x : Z) : Z := (x + 2 ^ 31) mod 2 ^ 32 - 2 ^ 31.

(** [x >> n]: signed shift of the 32-bit value. *)
Definition sar (x n : Z) : Z := Z.shiftr (ToInt32 x) n.

(** [x & y] on the 32-bit values. *)
Definition band (x y : Z) : Z := Z.land (ToInt32 x) (ToInt32 y).

(** [x || y] on numbers: [0] is the falsy one. *)
Definition or_else (x y : Z) : Z := if x =? 0 then y else x.

End JS.

(** ** Data *)

(** [yauzl.Entry], the two fields the engine reads.  [fileName] is the text
    that [(entry.fileName as Buffer).toString("utf8")] yields;
    [externalFileAttributes] is the unsigned 32-bit word of the central
    directory record. *)
Record Entry := mkEntry {
  fileName : string;
  externalFileAttributes : Z
}.

(** [Unzip.modeFromEntry] *)
Definition modeFromEntry (entry : Entry) : Z :=
  let attr := JS.or_else (JS.sar (externalFileAttributes entry) 16) 33188%Z in
  fold_left (fun a b => (a + b)%Z)
    (map (fun mask => JS.band attr mask)
       [448 (* S_IRWXU *); 56 (* S_IRWXG *); 7 (* S_IRWXO *)]%Z)
    (JS.band attr 61440 (* S_IFMT *)).

(** The test of [writeEntryToFile]: [(mode & 0o170000) === 0o120000]. *)
Definition isSymlink (mode : Z) : bool := (JS.band mode 61440 =? 40960)%Z.


(** Names: the replacement of every backslash (code 92) by a slash, and the
    test for a final slash. *)
Fixpoint replace_backslash (s : string) : string :=
  match s with
  | EmptyString => EmptyString
  | String ch rest =>
      String (if Ascii.eqb ch "092" then "/"%char else ch) (replace_backslash rest)
  end.

Fixpoint ends_with_slash (s : string) : bool :=
  match s with
  | EmptyString => false
  | String ch EmptyString => Ascii.eqb ch "/"
  | String _ rest => ends_with_slash rest
  end.

(** Paths are kept as the expressions the engine builds with Node's [path]
    module, which is not part of the engine. *)
Inductive Path :=
| Folder (p : string)
| Join (dir : Path) (name : string)   (* path.join(dir, name) *)
| Dirname (p : Path).                 (* path.dirname(p) *)

(** JavaScript's [Error], by name and message. *)
Record Error := mkError { error_name : string; error_message : string }.

(** [Unzip.canceled] *)
Definition canceled : Error :=
  let message := "Canceled"%string in mkError message message.

(** [IExtractOptions].  A field left out is [None]; for [onEntry] only its
    presence is configuration: what the callback does when called comes with
    the entry event that triggers it. *)
Record IExtractOptions := mkOptions {
  overwrite : option bool;
  symlinkAsFileOnWindows : option bool;
  onEntry : bool
}.

(** What one invocation of [extract] never changes: [this.options], the
    arguments [zipFile] (here [zipFilePath], the name [zipFile] being kept
    for the field of the class) and [targetFolder], and [process.platform]. *)
Record Env := mkEnv {
  options : option IExtractOptions;
  platform : string;
  zipFilePath : string;
  targetFolder : string
}.

(** [Unzip.isOverwrite] *)
Definition isOverwrite (e : Env) : bool :=
  match options e with
  | Some o => match overwrite o with Some true => true | _ => false end
  | None => false
  end.

(** [Unzip.symlinkToFile] *)
Definition symlinkToFile (e : Env) : bool :=
  if String.eqb (platform e) "win32" then
    match options e with
    | Some o =>
        match symlinkAsFileOnWindows o with
        | Some false => false
        | _ => true
        end
    | None => true
    end
  else false.

(** class [EntryEvent] *)
Record EntryEvent := mkEntryEvent {
  entryName : string;
  entryCount : nat;
  isPrevented : bool
}.

Definition new_EntryEvent (entryCount : nat) : EntryEvent :=
  mkEntryEvent EmptyString entryCount false.
Definition set_entryName (name : string) (ev : EntryEvent) : EntryEvent :=
  mkEntryEvent name (entryCount ev) (isPrevented ev).
Definition preventDefault (ev : EntryEvent) : EntryEvent :=
  mkEntryEvent (entryName ev) (entryCount ev) true.
Definition reset (ev : EntryEvent) : EntryEvent :=
  mkEntryEvent (entryName ev) (entryCount ev) false.

(** A promise handed to the caller. *)
Inductive Promise := Pending | Resolved | Rejected (reason : Error).

(** ** The calls the engine makes on its collaborators

    The engine works through yauzl, Node's streams and two modules of the
    repository, [./fs] ([exfs.rimraf], [exfs.ensureFolder]) and [./util]
    ([util.symlink]), whose code is not among the sources at hand.  Their
    functions are kept as calls, logged in the order the engine makes them;
    what they answer reaches the engine later, as an [Event].  By the
    specification [ensureFolder] creates the folder with its parents and is
    idempotent. *)

Inductive Effect :=
| Rimraf (p : Path)                              (* exfs.rimraf *)
| EnsureFolder (p : Path)                        (* exfs.ensureFolder *)
| OpenZip (zip : string)                         (* yauzl.open *)
| ReadEntry                                      (* zfile.readEntry() *)
| CloseZip                                       (* zfile.close() *)
| OnEntry (name : string) (count : nat)          (* options.onEntry(event) *)
| OpenReadStream (i : nat)                       (* zfile.openReadStream(entry, ..) *)
| CreateWriteStream (i : nat) (p : Path) (mode : Z)
| Pipe (i : nat)                                 (* readStream.pipe(fileStream) *)
| Unpipe (i : nat)                               (* readStream.unpipe(fileStream) *)
| Destroy (i : nat) (err : Error)                (* fileStream.destroy(err) *)
| Symlink (linkContent : string) (des : Path).   (* util.symlink *)

(** ** One run of the "entry" listener

    The listener is an async function: each entry the reader yields starts a
    run of its body, which is suspended at an [await] until the awaited
    promise settles.  A run is numbered by the position of its entry in the
    archive. *)

Inductive Handler :=
| Thrown            (* onEntry threw: the body ended before its try block *)
| Skipped           (* preventDefault: the body ended through the if branch *)
| EnsuringDir       (* handleEntry awaits ensureFolder(join(target, name)) *)
| EnsuringParent    (* extractEntry awaits ensureFolder(dirname(filePath)) *)
| OpeningStream     (* extractEntry awaits openZipFileStream *)
| Writing           (* extractEntry awaits writeEntryToFile *)
| Counted           (* the try block ran to its end *)
| Caught.           (* the catch block ran *)

Inductive ReadStream := NoRead | Reading | Ended | ReadFailed.
Inductive WriteStream := NoWrite | Writable | Destroyed | WriteFailed | Closed.

Record Task := mkTask {
  decodeEntryFileName : string;
  entry : Entry;
  handler : Handler;
  readStream : ReadStream;      (* the stream openReadStream gave, if any *)
  fileStream : WriteStream;     (* [fileStream] of writeEntryToFile; NoWrite: undefined *)
  asLink : bool;                (* writeEntryToFile took the symlink branch *)
  linkContent : string;
  linking : bool                (* createSymlink is in flight *)
}.

Definition task_handler x (t : Task) : Task :=
  mkTask (decodeEntryFileName t) (entry t) x (readStream t) (fileStream t) (asLink t)
     (linkContent t) (linking t).
Definition task_readStream x (t : Task) : Task :=
  mkTask (decodeEntryFileName t) (entry t) (handler t) x (fileStream t) (asLink t)
     (linkContent t) (linking t).
Definition task_fileStream x (t : Task) : Task :=
  mkTask (decodeEntryFileName t) (entry t) (handler t) (readStream t) x (asLink t)
     (linkContent t) (linking t).
Definition task_asLink x (t : Task) : Task :=
  mkTask (decodeEntryFileName t) (entry t) (handler t) (readStream t) (fileStream t) x
     (linkContent t) (linking t).
Definition task_linkContent x (t : Task) : Task :=
  mkTask (decodeEntryFileName t) (entry t) (handler t) (readStream t) (fileStream t) (asLink t)
     x (linking t).
Definition task_linking x (t : Task) : Task :=
  mkTask (decodeEntryFileName t) (entry t) (handler t) (readStream t) (fileStream t) (asLink t)
     (linkContent t) x.

Definition new_task (name : string) (en : Entry) (h : Handler) : Task :=
  mkTask name en h NoRead NoWrite false EmptyString false.

(** ** The state of an extraction *)

Inductive Phase :=
| AwaitRimraf         (* await exfs.rimraf(targetFolder) *)
| AwaitEnsureTarget   (* await exfs.ensureFolder(targetFolder) *)
| AwaitOpen           (* await this.openZip(zipFile) *)
| Listening           (* the executor of the returned promise has run *)
| Returned.           (* extract ended before it built that promise *)

Record State := mkState {
  env : Env;
  (* fields of [Unzip] *)
  isCanceled : bool;
  zipFile : bool;                  (* this.zipFile holds the handle (not null) *)
  cancelCallback : option nat;     (* the closure of the write of run i *)
  (* the invocation of [extract] *)
  phase : Phase;
  result : Promise;                (* what extract returned *)
  total : nat;                     (* zfile.entryCount *)
  extractedEntriesCount : nat;
  entryEvent : EntryEvent;
  (* the yauzl.ZipFile *)
  entriesRead : nat;               (* entries yielded so far *)
  readRequests : nat;              (* readEntry() calls not yet answered *)
  isOpen : bool;
  onceError : bool;                (* the once("error") listener is still on *)
  onceClose : bool;                (* the once("close") listener is still on *)
  onEntryListener : bool;          (* the on("entry") listener was installed *)
  tasks : list Task;
  (* the world *)
  effects : list Effect;           (* calls made, oldest first *)
  ensured : list Path              (* folders whose ensureFolder resolved *)
}.

Definition set_isCanceled x (s : State) : State :=
  mkState (env s) x (zipFile s) (cancelCallback s) (phase s) (result s) (total s)
     (extractedEntriesCount s) (entryEvent s) (entriesRead s) (readRequests s) (isOpen s)
     (onceError s) (onceClose s) (onEntryListener s) (tasks s) (effects s) (ensured s).
Definition set_zipFile x (s : State) : State :=
  mkState (env s) (isCanceled s) x (cancelCallback s) (phase s) (result s) (total s)
     (extractedEntriesCount s) (entryEvent s) (entriesRead s) (readRequests s) (isOpen s)
     (onceError s) (onceClose s) (onEntryListener s) (tasks s) (effects s) (ensured s).
Definition set_cancelCallback x (s : State) : State :=
  mkState (env s) (isCanceled s) (zipFile s) x (phase s) (result s) (total s)
     (extractedEntriesCount s) (entryEvent s) (entriesRead s) (readRequests s) (isOpen s)
     (onceError s) (onceClose s) (onEntryListener s) (tasks s) (effects s) (ensured s).
Definition set_phase x (s : State) : State :=
  mkState (env s) (isCanceled s) (zipFile s) (cancelCallback s) x (result s) (total s)
     (extractedEntriesCount s) (entryEvent s) (entriesRead s) (readRequests s) (isOpen s)
     (onceError s) (onceClose s) (onEntryListener s) (tasks s) (effects s) (ensured s).
Definition set_result x (s : State) : State :=
  mkState (env s) (isCanceled s) (zipFile s) (cancelCallback s) (phase s) x (total s)
     (extractedEntriesCount s) (entryEvent s) (entriesRead s) (readRequests s) (isOpen s)
     (onceError s) (onceClose s) (onEntryListener s) (tasks s) (effects s) (ensured s).
Definition set_total x (s : State) : State :=
  mkState (env s) (isCanceled s) (zipFile s) (cancelCallback s) (phase s) (result s) x
     (extractedEntriesCount s) (entryEvent s) (entriesRead s) (readRequests s) (isOpen s)
     (onceError s) (onceClose s) (onEntryListener s) (tasks s) (effects s) (ensured s).
Definition set_extractedEntriesCount x (s : State) : State :=
  mkState (env s) (isCanceled s) (zipFile s) (cancelCallback s) (phase s) (result s) (total s) x
     (entryEvent s) (entriesRead s) (readRequests s) (isOpen s) (onceError s) (onceClose s)
     (onEntryListener s) (tasks s) (effects s) (ensured s).
Definition set_entryEvent x (s : State) : State :=
  mkState (env s) (isCanceled s) (zipFile s) (cancelCallback s) (phase s) (result s) (total s)
     (extractedEntriesCount s) x (entriesRead s) (readRequests s) (isOpen s) (onceError s)
     (onceClose s) (onEntryListener s) (tasks s) (effects s) (ensured s).
Definition set_entriesRead x (s : State) : State :=
  mkState (env s) (isCanceled s) (zipFile s) (cancelCallback s) (phase s) (result s) (total s)
     (extractedEntriesCount s) (entryEvent s) x (readRequests s) (isOpen s) (onceError s)
     (onceClose s) (onEntryListener s) (tasks s) (effects s) (ensured s).
Definition set_readRequests x (s : State) : State :=
  mkState (env s) (isCanceled s) (zipFile s) (cancelCallback s) (phase s) (result s) (total s)
     (extractedEntriesCount s) (entryEvent s) (entriesRead s) x (isOpen s) (onceError s)
     (onceClose s) (onEntryListener s) (tasks s) (effects s) (ensured s).
Definition set_isOpen x (s : State) : State :=
  mkState (env s) (isCanceled s) (zipFile s) (cancelCallback s) (phase s) (result s) (total s)
     (extractedEntriesCount s) (entryEvent s) (entriesRead s) (readRequests s) x (onceError s)
     (onceClose s) (onEntryListener s) (tasks s) (effects s) (ensured s).
Definition set_onceError x (s : State) : State :=
  mkState (env s) (isCanceled s) (zipFile s) (cancelCallback s) (phase s) (result s) (total s)
     (extractedEntriesCount s) (entryEvent s) (entriesRead s) (readRequests s) (isOpen s) x
     (onceClose s) (onEntryListener s) (tasks s) (effects s) (ensured s).
Definition set_onceClose x (s : State) : State :=
  mkState (env s) (isCanceled s) (zipFile s) (cancelCallback s) (phase s) (result s) (total s)
     (extractedEntriesCount s) (entryEvent s) (entriesRead s) (readRequests s) (isOpen s)
     (onceError s) x (onEntryListener s) (tasks s) (effects s) (ensured s).
Definition set_onEntryListener x (s : State) : State :=
  mkState (env s) (isCanceled s) (zipFile s) (cancelCallback s) (phase s) (result s) (total s)
     (extractedEntriesCount s) (entryEvent s) (entriesRead s) (readRequests s) (isOpen s)
     (onceError s) (onceClose s) x (tasks s) (effects s) (ensured s).
Definition set_tasks x (s : State) : State :=
  mkState (env s) (isCanceled s) (zipFile s) (cancelCallback s) (phase s) (result s) (total s)
     (extractedEntriesCount s) (entryEvent s) (entriesRead s) (readRequests s) (isOpen s)
     (onceError s) (onceClose s) (onEntryListener s) x (effects s) (ensured s).
Definition set_effects x (s : State) : State :=
  mkState (env s) (isCanceled s) (zipFile s) (cancelCallback s) (phase s) (result s) (total s)
     (extractedEntriesCount s) (entryEvent s) (entriesRead s) (readRequests s) (isOpen s)
     (onceError s) (onceClose s) (onEntryListener s) (tasks s) x (ensured s).
Definition set_ensured x (s : State) : State :=
  mkState (env s) (isCanceled s) (zipFile s) (cancelCallback s) (phase s) (result s) (total s)
     (extractedEntriesCount s) (entryEvent s) (entriesRead s) (readRequests s) (isOpen s)
     (onceError s) (onceClose s) (onEntryListener s) (tasks s) (effects s) x.

Definition set_task (i : nat) (f : Task -> Task) (s : State) : State :=
  set_tasks (alter f i (tasks s)) s.
Definition add_task (t : Task) (s : State) : State :=
  set_tasks (tasks s ++ [t]) s.
Definition call (es : list Effect) (s : State) : State :=
  set_effects (effects s ++ es) s.

(** The resolve and reject functions of the promise [extract] returns (the
    [c] and [e] of its executor); a settled promise stays as it is.  A
    rejection before the promise exists, by [return Promise.reject(..)] or by
    a throwing [await], settles the same [result]. *)
Definition resolve (s : State) : State :=
  match result s with
  | Pending => set_result Resolved s
  | _ => s
  end.
Definition reject (err : Error) (s : State) : State :=
  match result s with
  | Pending => set_result (Rejected err) s
  | _ => s
  end.

(** ** The engine *)

(** [Unzip.closeZip] *)
Definition closeZip (s : State) : State :=
  if zipFile s then set_zipFile false (set_isOpen false (call [CloseZip] s)) else s.

(** The closure [writeEntryToFile] stores in [this.cancelCallback], for the
    write of run [i]. *)
Definition destroy (t : Task) : Task :=
  match fileStream t with
  | Writable => task_fileStream Destroyed t
  | _ => t
  end.

Definition invoke_cancelCallback (i : nat) (err : Error) (s : State) : State :=
  let s := set_cancelCallback None s in
  match tasks s !! i with
  | Some t =>
      match fileStream t with
      | NoWrite => s
      | _ => set_task i destroy (call [Unpipe i; Destroy i err] s)
      end
  | None => s
  end.

(** [Unzip.cancel] *)
Definition cancel (s : State) : State :=
  let s := set_isCanceled true s in
  let s :=
    match cancelCallback s with
    | Some i => invoke_cancelCallback i canceled s
    | None => s
    end in
  closeZip s.

(** [zfile.readEntry()] *)
Definition readEntry (s : State) : State :=
  set_readRequests (S (readRequests s)) (call [ReadEntry] s).

(** What the caller's [onEntry] does during one call. *)
Inductive CallbackAction :=
| CallPreventDefault          (* event.preventDefault() *)
| CallCancel                  (* calls cancel() on the engine *)
| Throw (err : Error).

Fixpoint callback (acts : list CallbackAction) (s : State) : State * bool :=
  match acts with
  | [] => (s, false)
  | CallPreventDefault :: rest =>
      callback rest (set_entryEvent (preventDefault (entryEvent s)) s)
  | CallCancel :: rest => callback rest (cancel s)
  | Throw _ :: _ => (s, true)
  end.

(** [Unzip.onEntryCallback]; the flag tells whether the callback threw. *)
Definition onEntryCallback (acts : list CallbackAction) (s : State) : State * bool :=
  match options (env s) with
  | Some o =>
      if onEntry o then
        callback acts
          (call [OnEntry (entryName (entryEvent s)) (entryCount (entryEvent s))] s)
      else (s, false)
  | None => (s, false)
  end.

(** The end of the try block of the listener:
    [extractedEntriesCount++; if (extractedEntriesCount === total) c()]. *)
Definition count_entry (s : State) : State :=
  let s := set_extractedEntriesCount (S (extractedEntriesCount s)) s in
  if extractedEntriesCount s =? total s then resolve s else s.

(** The catch block of the listener. *)
Definition catch_entry (error : Error) (s : State) : State :=
  if isCanceled s then reject canceled s
  else closeZip (reject error s).

(** The body of run [i] ends: normally, or with [error] thrown in its try
    block. *)
Definition finish (i : nat) (r : option Error) (s : State) : State :=
  match r with
  | None => count_entry (set_task i (task_handler Counted) s)
  | Some error => catch_entry error (set_task i (task_handler Caught) s)
  end.

Definition filePath (s : State) (t : Task) : Path :=
  Join (Folder (targetFolder (env s))) (decodeEntryFileName t).

(** [Unzip.handleEntry], up to its first [await]: the directory branch, or
    [extractEntry] up to its first [await]. *)
Definition handleEntry (en : Entry) (decodeEntryFileName : string) (s : State) : State :=
  let t := new_task decodeEntryFileName en in
  if ends_with_slash decodeEntryFileName then
    call [EnsureFolder (filePath s (t EnsuringDir))] (add_task (t EnsuringDir) s)
  else
    call [EnsureFolder (Dirname (filePath s (t EnsuringParent)))]
      (add_task (t EnsuringParent) s).

(** The "entry" listener, up to its first [await]. *)
Definition entry_listener (en : Entry) (acts : list CallbackAction) (s : State) : State :=
  let rawName := fileName en in
  let fileName := replace_backslash rawName in
  let s := set_entryEvent (set_entryName fileName (entryEvent s)) s in
  let (s, threw) := onEntryCallback acts s in
  if threw then add_task (new_task fileName en Thrown) s
  else if isPrevented (entryEvent s) then
    let s := set_entryEvent (reset (entryEvent s)) s in
    let s := readEntry s in
    count_entry (add_task (new_task fileName en Skipped) s)
  else handleEntry en fileName s.

(** [Unzip.writeEntryToFile], its synchronous part: the callback is
    registered, then the executor picks the branch.  The Node calls of the
    executor are taken not to throw. *)
Definition writeEntryToFile (i : nat) (t : Task) (s : State) : State :=
  let s := set_cancelCallback (Some i) s in
  let mode := modeFromEntry (entry t) in
  if isSymlink mode && negb (symlinkToFile (env s)) then
    set_task i
      (fun t => task_handler Writing (task_linkContent EmptyString (task_asLink true t))) s
  else
    set_task i
      (fun t => task_handler Writing (task_fileStream Writable (task_asLink false t)))
      (call [CreateWriteStream i (filePath s t) mode; Pipe i] s).

(** ** Events: what the outside world does to a suspended engine *)

Inductive Event :=
| UserCancel                                     (* the caller calls cancel() *)
| RimrafSettled (r : option Error)               (* None: resolved *)
| EnsureTargetSettled (r : option Error)
| OpenSettled (r : Error + nat)
    (* yauzl.open calls back: with err, or with a zfile of that entryCount *)
| EntryRead (en : Entry) (acts : list CallbackAction)
    (* zfile emits "entry"; [acts] is what onEntry does if it is called *)
| ReaderError (err : Error)                      (* zfile emits "error" *)
| ReaderClose                                    (* zfile emits "close" *)
| FolderSettled (i : nat) (r : option Error)     (* ensureFolder of run i *)
| StreamSettled (i : nat) (r : option Error)     (* openReadStream of run i *)
| ReadData (i : nat) (chunk : string)
    (* readStream emits "data"; [chunk] is the text that the listener appends:
       the chunk itself for a string, chunk.toString() for a Buffer *)
| ReadEnd (i : nat)                              (* readStream emits "end" *)
| ReadError (i : nat) (err : Error)              (* readStream emits "error" *)
| WriteClose (i : nat)                           (* fileStream emits "close" *)
| WriteError (i : nat) (err : Error)             (* fileStream emits "error" *)
| SymlinkSettled (i : nat) (r : option Error).   (* util.symlink of run i *)

(** [extract] from the check that follows the rimraf step to the next
    [await]. *)
Definition after_rimraf (s : State) : State :=
  if isCanceled s then set_phase Returned (reject canceled s)
  else set_phase AwaitEnsureTarget (call [EnsureFolder (Folder (targetFolder (env s)))] s).

(** [extract] from the return of [openZip] to the end of the executor. *)
Definition opened (n : nat) (s : State) : State :=
  let s := set_isOpen true (set_zipFile true s) in
  let s := readEntry s in
  let s := set_total n s in
  let s := set_onceClose true (set_onceError true (set_phase Listening s)) in
  if isCanceled s then closeZip s
  else set_onEntryListener true (set_entryEvent (new_EntryEvent (total s)) s).

(** The listeners on the reader. *)
Definition error_listener (err : Error) (s : State) : State :=
  if isCanceled s then reject canceled s else reject err s.

Definition close_listener (s : State) : State :=
  if isCanceled s then reject canceled s
  else if total s =? 0 then resolve s
  else s.

(** The continuations of run [i]. *)
Definition folder_settled (i : nat) (r : option Error) (t : Task) (s : State) : State :=
  match handler t, r with
  | EnsuringDir, None =>
      let s := set_ensured (ensured s ++ [filePath s t]) s in
      finish i None (readEntry s)
  | EnsuringParent, None =>
      let s := set_ensured (ensured s ++ [Dirname (filePath s t)]) s in
      call [OpenReadStream i] (set_task i (task_handler OpeningStream) s)
  | EnsuringDir, Some error | EnsuringParent, Some error => finish i (Some error) s
  | _, _ => s
  end.

Definition stream_settled (i : nat) (r : option Error) (t : Task) (s : State) : State :=
  match handler t, r with
  | OpeningStream, None => writeEntryToFile i t (set_task i (task_readStream Reading) s)
  | OpeningStream, Some error => finish i (Some error) s
  | _, _ => s
  end.

(** Settling the promise of [writeEntryToFile] wakes the run only if it still
    waits for it. *)
Definition settle_write (i : nat) (r : option Error) (t : Task) (s : State) : State :=
  match handler t with
  | Writing => finish i r s
  | _ => s
  end.

Definition read_data (i : nat) (chunk : string) (t : Task) (s : State) : State :=
  match readStream t with
  | Reading =>
      if asLink t then set_task i (fun t => task_linkContent (linkContent t ++ chunk)%string t) s
      else s
  | _ => s
  end.

Definition read_end (i : nat) (t : Task) (s : State) : State :=
  match readStream t with
  | Reading =>
      let s := readEntry (set_task i (task_readStream Ended) s) in
      if asLink t then
        call [Symlink (linkContent t) (filePath s t)] (set_task i (task_linking true) s)
      else s
  | _ => s
  end.

Definition read_error (i : nat) (err : Error) (t : Task) (s : State) : State :=
  match readStream t with
  | Reading => settle_write i (Some err) t (set_task i (task_readStream ReadFailed) s)
  | _ => s
  end.

Definition write_close (i : nat) (t : Task) (s : State) : State :=
  match fileStream t with
  | Writable | Destroyed | WriteFailed =>
      settle_write i None t (set_task i (task_fileStream Closed) s)
  | _ => s
  end.

Definition write_error (i : nat) (err : Error) (t : Task) (s : State) : State :=
  match fileStream t with
  | Writable | Destroyed =>
      settle_write i (Some err) t (set_task i (task_fileStream WriteFailed) s)
  | _ => s
  end.

Definition symlink_settled (i : nat) (r : option Error) (t : Task) (s : State) : State :=
  if linking t then settle_write i r t (set_task i (task_linking false) s) else s.

Definition with_task (i : nat) (k : Task -> State -> State) (s : State) : State :=
  match tasks s !! i with
  | Some t => k t s
  | None => s
  end.

(** One event.  The world is free to choose the next event and what it
    carries (which promise settles and how, what the callback does, which
    stream speaks), within the contracts of the libraries: a promise settles
    once, and only while it is awaited; the reader yields an entry only in
    answer to a [readEntry] call, one entry per call and no more entries than
    [entryCount]; a read stream emits data, "end" or "error" only while it is
    open, and "end" or "error" once; a file stream emits "error" and "close"
    once.  An event outside these contracts leaves the state as it is. *)
Definition step (s : State) (ev : Event) : State :=
  match ev with
  | UserCancel => cancel s
  | RimrafSettled r =>
      match phase s, r with
      | AwaitRimraf, None => after_rimraf s
      | AwaitRimraf, Some err => set_phase Returned (reject err s)
      | _, _ => s
      end
  | EnsureTargetSettled r =>
      match phase s, r with
      | AwaitEnsureTarget, None =>
          let s := set_ensured (ensured s ++ [Folder (targetFolder (env s))]) s in
          set_phase AwaitOpen (call [OpenZip (zipFilePath (env s))] s)
      | AwaitEnsureTarget, Some err => set_phase Returned (reject err s)
      | _, _ => s
      end
  | OpenSettled r =>
      match phase s, r with
      | AwaitOpen, inr n => opened n s
      | AwaitOpen, inl err => set_phase Returned (reject err s)
      | _, _ => s
      end
  | EntryRead en acts =>
      match phase s with
      | Listening =>
          if (0 <? readRequests s) && (entriesRead s <? total s) then
            let s := set_readRequests (pred (readRequests s)) s in
            let s := set_entriesRead (S (entriesRead s)) s in
            if onEntryListener s then entry_listener en acts s else s
          else s
      | _ => s
      end
  | ReaderError err =>
      match phase s with
      | Listening =>
          if onceError s then error_listener err (set_onceError false s) else s
      | _ => s
      end
  | ReaderClose =>
      match phase s with
      | Listening =>
          if onceClose s then close_listener (set_onceClose false s) else s
      | _ => s
      end
  | FolderSettled i r => with_task i (folder_settled i r) s
  | StreamSettled i r => with_task i (stream_settled i r) s
  | ReadData i chunk => with_task i (read_data i chunk) s
  | ReadEnd i => with_task i (read_end i) s
  | ReadError i err => with_task i (read_error i err) s
  | WriteClose i => with_task i (write_close i) s
  | WriteError i err => with_task i (write_error i err) s
  | SymlinkSettled i r => with_task i (symlink_settled i r) s
  end.

Definition run (s : State) (evs : list Event) : State := fold_left step evs s.

(** [Unzip.extract] on a fresh [Unzip], up to its first [await]. *)
Definition extract (e : Env) : State :=
  let s :=
    mkState e false false None AwaitRimraf Pending 0 0 (new_EntryEvent 0)
      0 0 false false false false [] [] [] in
  if isOverwrite e then call [Rimraf (Folder (targetFolder e))] s
  else after_rimraf s.

(** * Properties *)

(** ** Cancellation masks errors *)

Definition masked (p : Promise) : Prop :=
  match p with
  | Rejected err => err = canceled
  | _ => True
  end.

Definition canceled_listening (s : State) : Prop :=
  phase s = Listening /\ isCanceled s = true /\ masked (result s).

(** ** Counting runs *)

Fixpoint tally {A} (p : A -> bool) (l : list A) : nat :=
  match l with
  | [] => 0
  | t :: l => (if p t then 1 else 0) + tally p l
  end.

(** A run that may still call [zfile.readEntry()]: it waits for a folder or
    for its stream, or its stream has not ended ("end" calls readEntry
    whatever became of the run). *)
Definition may_advance (t : Task) : bool :=
  match handler t, readStream t with
  | (EnsuringDir | EnsuringParent | OpeningStream), _ => true
  | _, Reading => true
  | _, _ => false
  end.

Definition stream_open (t : Task) : bool :=
  match readStream t with
  | Reading => true
  | _ => false
  end.

(** A run whose entry went into [extractedEntriesCount]. *)
Definition accounted (t : Task) : bool :=
  match handler t with
  | Skipped | Counted => true
  | _ => false
  end.

(** ** What a call of onEntry can do to the engine *)

Definition same_run (t t' : Task) : Prop := t' = t \/ t' = destroy t.

Definition silent (e : Effect) : bool :=
  match e with
  | OnEntry _ _ | Unpipe _ | Destroy _ _ | CloseZip => true
  | _ => false
  end.

Record undisturbed (s s' : State) : Prop := mkUndisturbed {
  und_env : env s' = env s;
  und_phase : phase s' = phase s;
  und_result : result s' = result s;
  und_total : total s' = total s;
  und_count : extractedEntriesCount s' = extractedEntriesCount s;
  und_entriesRead : entriesRead s' = entriesRead s;
  und_readRequests : readRequests s' = readRequests s;
  und_onceError : onceError s' = onceError s;
  und_onceClose : onceClose s' = onceClose s;
  und_listener : onEntryListener s' = onEntryListener s;
  und_ensured : ensured s' = ensured s;
  und_canceled : isCanceled s = true -> isCanceled s' = true;
  und_callback :
    cancelCallback s' = cancelCallback s \/
    (cancelCallback s' = None /\ isCanceled s' = true);
  und_tasks : Forall2 same_run (tasks s) (tasks s');
  und_effects : exists es, effects s' = effects s ++ es /\ forallb silent es = true
}.

(** ** The reachable states *)

Definition is_OnEntry (e : Effect) : bool :=
  match e with
  | OnEntry _ _ => true
  | _ => false
  end.

(** A run that has not reached [writeEntryToFile] has no stream. *)
Definition task_wf (t : Task) : Prop :=
  match handler t with
  | Thrown | Skipped | EnsuringDir | EnsuringParent | OpeningStream =>
      readStream t = NoRead
  | _ => True
  end.

Record consistent (s : State) : Prop := mkConsistent {
  con_dormant :
    phase s <> Listening ->
    tasks s = [] /\ readRequests s = 0 /\ extractedEntriesCount s = 0 /\
    entriesRead s = 0 /\ isPrevented (entryEvent s) = false /\ result s <> Resolved /\
    (phase s <> Returned -> result s = Pending) /\
    tally is_OnEntry (effects s) = 0 /\ onEntryListener s = false;
  con_single : readRequests s + tally may_advance (tasks s) <= 1;
  con_prevented :
    isPrevented (entryEvent s) = true ->
    readRequests s + tally may_advance (tasks s) = 0;
  con_count : extractedEntriesCount s = tally accounted (tasks s);
  con_read : length (tasks s) <= entriesRead s /\ entriesRead s <= total s;
  con_resolved : result s = Resolved -> extractedEntriesCount s = total s;
  con_tasks : Forall task_wf (tasks s)
}.

(** ** Folders come before streams *)

Definition is_dir (t : Task) : bool := ends_with_slash (decodeEntryFileName t).

(** What the state of a run tells about the folders: which [ensureFolder]
    was called for it, and whether it has resolved. *)
Definition task_fs (s : State) (t : Task) : Prop :=
  let fp := filePath s t in
  if is_dir t then
    readStream t = NoRead /\
    match handler t with
    | Thrown | Skipped => True
    | EnsuringDir | Caught => EnsureFolder fp ∈ effects s
    | Counted => EnsureFolder fp ∈ effects s /\ fp ∈ ensured s
    | EnsuringParent | OpeningStream | Writing => False
    end
  else
    match handler t with
    | Thrown | Skipped => readStream t = NoRead
    | EnsuringDir => False
    | EnsuringParent => readStream t = NoRead /\ EnsureFolder (Dirname fp) ∈ effects s
    | OpeningStream | Writing | Counted =>
        EnsureFolder (Dirname fp) ∈ effects s /\ Dirname fp ∈ ensured s
    | Caught =>
        EnsureFolder (Dirname fp) ∈ effects s /\
        (readStream t <> NoRead -> Dirname fp ∈ ensured s)
    end.

Definition folders_first (s : State) : Prop := Forall (task_fs s) (tasks s).

(** ** What a callback does, read off its actions *)

Definition has_onEntry (e : Env) : bool :=
  match options e with
  | Some o => onEntry o
  | None => false
  end.

Definition throws (acts : list CallbackAction) : bool :=
  existsb (fun a => match a with Throw _ => true | _ => false end) acts.

Definition prevents (acts : list CallbackAction) : bool :=
  existsb (fun a => match a with CallPreventDefault => true | _ => false end) acts.

(** Effects that put something on disk or open a stream of the archive. *)
Definition materializes (e : Effect) : bool :=
  match e with
  | Rimraf _ | EnsureFolder _ | OpenReadStream _ | CreateWriteStream _ _ _
  | Pipe _ | Symlink _ _ => true
  | _ => false
  end.

Definition is_ReadEntry (e : Effect) : bool :=
  match e with
  | ReadEntry => true
  | _ => false
  end.

(** An entry can be delivered: the listener is on, a [readEntry] call is
    outstanding and the archive has an entry left. *)
Definition deliverable (s : State) : Prop :=
  phase s = Listening /\ onEntryListener s = true /\
  0 < readRequests s /\ entriesRead s < total s.

(** ** Where readEntry is called *)

Definition readEntry_calls (s : State) : nat := tally is_ReadEntry (effects s).

(** The four places of the source that call [zfile.readEntry()], as the
    events that reach them. *)
Definition advance_point (s : State) (ev : Event) : Prop :=
  (exists n, ev = OpenSettled (inr n) /\ phase s = AwaitOpen) \/
  (exists en acts l,
     ev = EntryRead en acts /\
     tasks (step s ev) = l ++ [new_task (replace_backslash (fileName en)) en Skipped]) \/
  (exists i t,
     ev = FolderSettled i None /\ tasks s !! i = Some t /\
     handler t = EnsuringDir /\ filePath s t ∈ ensured (step s ev)) \/
  (exists i t,
     ev = ReadEnd i /\ tasks s !! i = Some t /\ readStream t = Reading).

(** ** Cancellation while the archive is being opened *)

Definition closed_at_open (s : State) : Prop :=
  phase s = Listening /\ isCanceled s = true /\ onEntryListener s = false /\
  tasks s = [] /\ zipFile s = false /\ isOpen s = false /\
  ((result s = Pending /\ onceClose s = true /\ onceError s = true) \/
   result s = Rejected canceled).

(** ** An archive without entries *)

Definition empty_listening (s : State) : Prop :=
  phase s = Listening /\ total s = 0 /\ tasks s = [] /\
  tally is_OnEntry (effects s) = 0.

(** Neither a cancellation nor an error of the reader. *)
Definition undisturbing (ev : Event) : bool :=
  match ev with
  | UserCancel | ReaderError _ => false
  | _ => true
  end.

Definition empty_pending (s : State) : Prop :=
  empty_listening s /\ isCanceled s = false /\
  ((result s = Pending /\ onceClose s = true) \/ result s = Resolved).

(** ** Directories, parents and streams *)

Definition named (t t' : Task) : Prop :=
  decodeEntryFileName t' = decodeEntryFileName t.

(** A read stream is only ever asked for a file entry whose parent folder
    exists. *)
Definition streams_have_parents (s : State) : Prop :=
  forall j,
    OpenReadStream j ∈ effects s ->
    exists t, tasks s !! j = Some t /\ is_dir t = false /\
              Dirname (filePath s t) ∈ ensured s.

(** ** Symbolic links *)

(** The chunks of a stream, as text, one after the other. *)
Definition text_of (chunks : list string) : string :=
  fold_right String.append EmptyString chunks.

(** ** Concrete archives and runs *)

Module Sample.
Local Open Scope string_scope.

Definition posix : Env :=
  mkEnv (Some (mkOptions None None true)) "linux" "archive.zip" "out".

Definition eio : Error := mkError "Error" "EIO: i/o error, read".

Definition docs : Entry := mkEntry "docs/" 0.
(** stored as docs, a backslash, readme.txt *)
Definition readme : Entry :=
  mkEntry ("docs" ++ String "092" "readme.txt") (33188 * 65536).
Definition latest : Entry := mkEntry "docs/latest" (41471 * 65536).
(** mode 0o104755: a setuid executable *)
Definition su : Entry := mkEntry "bin/su" (35309 * 65536).

(** The archive is open and the first entry has been asked for. *)
Definition opened_with (n : nat) : list Event :=
  [EnsureTargetSettled None; OpenSettled (inr n)].

(** One file entry, extracted to the end. *)
Definition one_file : list Event :=
  opened_with 1 ++
  [EntryRead readme []; FolderSettled 0 None; StreamSettled 0 None;
   ReadData 0 "hello"; ReadEnd 0; WriteClose 0].
End Sample.

(** ** The claims that the code does not meet, as the specification states them *)

(** C1 as stated: once cancel() is called on a pending extraction, the
    promise never ends otherwise than rejected with the Canceled error. *)
Definition cancel_always_cancels (e : Env) (before after : list Event) : Prop :=
  result (run (extract e) before) = Pending ->
  let r := result (run (extract e) (before ++ UserCancel :: after)) in
  r = Pending \/ r = Rejected canceled.

(** C3 as stated: nonzero high bits are the mode. *)
Definition high_bits_used_directly (entry : Entry) : Prop :=
  let high := (externalFileAttributes entry / 2 ^ 16)%Z in
  high <> 0%Z -> modeFromEntry entry = high.

(** C4 as stated: no callback stays registered for a write that completed. *)
Definition no_stale_callback (s : State) : Prop :=
  forall i t,
    cancelCallback s = Some i -> tasks s !! i = Some t -> handler t <> Counted.

(** ** Names of entries *)

(** The character occurs in the text. *)
Fixpoint occurs (c : ascii) (s : string) : bool :=
  match s with
  | EmptyString => false
  | String ch rest => Ascii.eqb ch c || occurs c rest
  end.

(** The last character of a text, if it has one. *)
Fixpoint last_char (s : string) : option ascii :=
  match s with
  | EmptyString => None
  | String ch EmptyString => Some ch
  | String _ rest => last_char rest
  end.

(** ** The archive handle *)

Definition is_CloseZip (e : Effect) : bool :=
  match e with
  | CloseZip => true
  | _ => false
  end.

(** What the reachable states tell about [this.zipFile]. *)
Record handle_inv (s : State) : Prop := mkHandleInv {
  hi_dormant :
    phase s <> Listening ->
    zipFile s = false /\ cancelCallback s = None /\
    tally is_CloseZip (effects s) = 0 /\ onceError s = false;
  hi_once :
    phase s = Listening ->
    tally is_CloseZip (effects s) = if zipFile s then 0 else 1;
  hi_canceled : isCanceled s = true -> zipFile s = false;
  hi_closed :
    phase s = Listening -> zipFile s = false ->
    isCanceled s = true \/ exists err, result s = Rejected err
}.

(** The state in which the callback of an entry has returned. *)
Definition called_back (en : Entry) (acts : list CallbackAction) (s : State) : State :=
  fst (onEntryCallback acts
         (set_entryEvent
            (set_entryName (replace_backslash (fileName en)) (entryEvent s)) s)).

(** ** A failing entry *)

(** The events that make run [i] throw inside its try block. *)
Definition entry_fails (s : State) (i : nat) (ev : Event) (err : Error) : Prop :=
  exists t,
    tasks s !! i = Some t /\
    ((ev = FolderSettled i (Some err) /\
      (handler t = EnsuringDir \/ handler t = EnsuringParent)) \/
     (ev = StreamSettled i (Some err) /\ handler t = OpeningStream) \/
     (handler t = Writing /\
      ((ev = ReadError i err /\ readStream t = Reading) \/
       (ev = WriteError i err /\ (fileStream t = Writable \/ fileStream t = Destroyed)) \/
       (ev = SymlinkSettled i (Some err) /\ linking t = true)))).

(** ** Before the first entry *)

(** The calls of [extract] before it builds its promise, in their order:
    rimraf only with the overwrite option, then ensureFolder on the target,
    then the opening of the archive. *)
Definition rimraf_call (e : Env) : list Effect :=
  if isOverwrite e then [Rimraf (Folder (targetFolder e))] else [].

Definition ensure_call (e : Env) : list Effect :=
  rimraf_call e ++ [EnsureFolder (Folder (targetFolder e))].

Definition open_call (e : Env) : list Effect :=
  ensure_call e ++ [OpenZip (zipFilePath e)].

(** A call that is not made again once the archive is open. *)
Definition once_only (x : Effect) : bool :=
  match x with
  | Rimraf _ | OpenZip _ => true
  | _ => false
  end.

Definition prologue_order (e : Env) (s : State) : Prop :=
  match phase s with
  | AwaitRimraf => isOverwrite e = true /\ effects s = rimraf_call e
  | AwaitEnsureTarget => effects s = ensure_call e
  | AwaitOpen => effects s = open_call e
  | Listening =>
      exists rest,
        effects s = open_call e ++ ReadEntry :: rest /\
        tally once_only rest = 0
  | Returned =>
      result s <> Pending /\
      ((isOverwrite e = true /\ effects s = rimraf_call e) \/
       effects s = ensure_call e \/ effects s = open_call e)
  end.

(** [extract] has ended before it opened the archive. *)
Definition ended_early (s : State) : Prop :=
  phase s = Returned /\ zipFile s = false /\ cancelCallback s = None /\ tasks s = [].

(** One of the three awaits before the archive is open fails. *)
Definition prologue_failure (s : State) (ev : Event) (err : Error) : Prop :=
  (phase s = AwaitRimraf /\ ev = RimrafSettled (Some err)) \/
  (phase s = AwaitEnsureTarget /\ ev = EnsureTargetSettled (Some err)) \/
  (phase s = AwaitOpen /\ ev = OpenSettled (inl err)).

(** The order holds for the options of the state itself. *)
Definition prologue_inv (s : State) : Prop := prologue_order (env s) s.

(** Before the archive is open, and after an early end, cancel() only sets
    the flag, and the events of the reader and of the entries find nobody. *)
Definition dormant (s : State) : Prop :=
  phase s <> Listening /\ zipFile s = false /\ cancelCallback s = None /\ tasks s = [].

(** ** What a run has written *)

(** The test of writeEntryToFile for the symlink branch. *)
Definition link_wanted (s : State) (t : Task) : bool :=
  isSymlink (modeFromEntry (entry t)) && negb (symlinkToFile (env s)).

(** What the state of a run tells about its streams: a run without a read
    stream has written nothing; a run with one is a file entry, took the
    branch that the test picks, and is counted only once its file stream has
    closed or its link has been asked for at the end of its read stream. *)
Definition task_io (s : State) (t : Task) : Prop :=
  match readStream t with
  | NoRead =>
      fileStream t = NoWrite /\ asLink t = false /\ linking t = false /\
      handler t <> Writing /\ (handler t = Counted -> is_dir t = true)
  | _ =>
      is_dir t = false /\ asLink t = link_wanted s t /\
      if asLink t then
        fileStream t = NoWrite /\
        (linking t = true \/ handler t = Counted ->
         readStream t = Ended /\
         Symlink (linkContent t) (filePath s t) ∈ effects s)
      else
        fileStream t <> NoWrite /\ linking t = false /\
        (handler t = Counted -> fileStream t = Closed)
  end.

Definition writes_accounted (s : State) : Prop := Forall (task_io s) (tasks s).

(** ** Every write belongs to an entry *)

(** A run keeps its entry and its name. *)
Definition kept (t t' : Task) : Prop :=
  decodeEntryFileName t' = decodeEntryFileName t /\ entry t' = entry t.

(** The run behind a createWriteStream or a symlink call. *)
Definition write_of (s : State) (x : Effect) : Prop :=
  match x with
  | CreateWriteStream i p mode =>
      exists t,
        tasks s !! i = Some t /\ is_dir t = false /\ p = filePath s t /\
        mode = modeFromEntry (entry t) /\ link_wanted s t = false
  | Symlink _ p =>
      exists i t,
        tasks s !! i = Some t /\ is_dir t = false /\ p = filePath s t /\
        link_wanted s t = true
  | _ => True
  end.

Definition writes_justified (s : State) : Prop :=
  forall x, x ∈ effects s -> write_of s x.

(** The place of the source that makes the call. *)
Definition write_origin (s : State) (ev : Event) (x : Effect) : Prop :=
  match x with
  | CreateWriteStream i p mode =>
      ev = StreamSettled i None /\
      exists t,
        tasks s !! i = Some t /\ handler t = OpeningStream /\ p = filePath s t /\
        mode = modeFromEntry (entry t) /\ link_wanted s t = false
  | Symlink c p =>
      exists i t,
        ev = ReadEnd i /\ tasks s !! i = Some t /\ readStream t = Reading /\
        asLink t = true /\ c = linkContent t /\ p = filePath s t
  | _ => True
  end.

(** ** The calls of onEntry *)

(** The calls of the callback among the calls made, each with the name and
    the count that its event shows. *)
Fixpoint onEntry_calls (es : list Effect) : list (string * nat) :=
  match es with
  | [] => []
  | OnEntry name count :: es => (name, count) :: onEntry_calls es
  | _ :: es => onEntry_calls es
  end.

Definition names (l : list Task) : list string := decodeEntryFileName <$> l.

Definition stored_names (l : list Task) : list string :=
  (fun t => replace_backslash (fileName (entry t))) <$> l.

Definition with_count (count : nat) (l : list string) : list (string * nat) :=
  (fun name => (name, count)) <$> l.

(** What the callback is entitled to see, for the runs so far. *)
Definition expected_calls (s : State) : list (string * nat) :=
  if has_onEntry (env s) then with_count (total s) (names (tasks s)) else [].

Record callbacks_match (s : State) : Prop := mkCallbacksMatch {
  cm_calls : onEntry_calls (effects s) = expected_calls s;
  cm_names : names (tasks s) = stored_names (tasks s);
  cm_count : onEntryListener s = true -> entryCount (entryEvent s) = total s;
  cm_last :
    forall name, last (names (tasks s)) = Some name -> entryName (entryEvent s) = name
}.

(** ** The callback of the write in flight *)

(** As long as cancel() was not called, the callback registered is that of
    the run whose read stream is open. *)
Definition callback_tracks (s : State) : Prop :=
  forall i t,
    tasks s !! i = Some t -> readStream t = Reading -> isCanceled s = false ->
    cancelCallback s = Some i.

(** ** After a failure *)

(** A run that ended without being counted: its callback threw, or its catch
    block ran. *)
Definition lost (t : Task) : bool :=
  match handler t with
  | Thrown | Caught => true
  | _ => false
  end.

(** ** After cancel() *)

(** cancel() was called on an open archive, and the close listener is still
    on unless the promise is settled. *)
Definition closing (s : State) : Prop :=
  phase s = Listening /\ isCanceled s = true /\
  (onceClose s = true \/ result s <> Pending).

(** ** More archives and runs *)

Module MoreSamples.
Local Open Scope string_scope.

(** The overwrite option is set. *)
Definition overwriting : Env :=
  mkEnv (Some (mkOptions (Some true) None false)) "linux" "archive.zip" "out".

(** The high half holds the sticky bit and nothing else. *)
Definition sticky : Entry := mkEntry "tmp" (512 * 65536).

(** The read stream of the first of two entries is open. *)
Definition streaming : list Event :=
  Sample.opened_with 2 ++
  [EntryRead Sample.readme []; FolderSettled 0 None; StreamSettled 0 None].

(** The run that [streaming] leaves for the first entry. *)
Definition streamed : Task :=
  mkTask "docs/readme.txt" Sample.readme Writing Reading Writable false "" false.

(** The callback of the first of two entries throws. *)
Definition thrown : list Event :=
  Sample.opened_with 2 ++ [EntryRead Sample.readme [Throw Sample.eio]].
End MoreSamples.

(** * Proofs *)

(** ** The mode computation *)

Section Mode.
Local Open Scope Z_scope.

Lemma ToInt32_small x : - 2 ^ 31 <= x < 2 ^ 31 -> JS.ToInt32 x = x.
Proof.
  intros H. unfold JS.ToInt32.
  rewrite Z.mod_small by lia. lia.
Qed.

(** Masking with a 16-bit mask only looks at the low 16 bits. *)
Lemma land_low16 a m : 0 <= m < 2 ^ 16 -> Z.land a m = Z.land (a mod 2 ^ 16) m.
Proof.
  intros Hm.
  rewrite <- (Z.land_ones a 16) by lia.
  rewrite <- Z.land_assoc.
  f_equal.
  rewrite Z.land_comm, Z.land_ones by lia.
  symmetry. apply Z.mod_small. lia.
Qed.

(** Adding two disjoint selections of bits is selecting their union. *)
Lemma land_add_disjoint a m1 m2 :
  Z.land m1 m2 = 0 -> Z.land a m1 + Z.land a m2 = Z.land a (Z.lor m1 m2).
Proof.
  intros Hd.
  rewrite Z.add_nocarry_lxor.
  - rewrite Z.lxor_lor.
    + symmetry. apply Z.land_lor_distr_r.
    + rewrite Z.land_assoc, (Z.land_comm (Z.land a m1) a), Z.land_assoc,
        Z.land_diag, <- Z.land_assoc, Hd. apply Z.land_0_r.
  - rewrite Z.land_assoc, (Z.land_comm (Z.land a m1) a), Z.land_assoc,
      Z.land_diag, <- Z.land_assoc, Hd. apply Z.land_0_r.
Qed.

(** The four masked pieces add up to one mask, [0o170777]. *)
Lemma mode_sum a :
  Z.land a 61440 + Z.land a 448 + Z.land a 56 + Z.land a 7 = Z.land a 61951.
Proof.
  rewrite (land_add_disjoint a 61440 448) by reflexivity.
  rewrite (land_add_disjoint a _ 56) by reflexivity.
  rewrite (land_add_disjoint a _ 7) by reflexivity.
  reflexivity.
Qed.

Lemma modeFromEntry_unfold entry :
  let attr := JS.or_else (JS.sar (externalFileAttributes entry) 16) 33188 in
  modeFromEntry entry = Z.land (JS.ToInt32 attr) 61951.
Proof.
  intros attr. unfold modeFromEntry. fold attr.
  cbn [map fold_left]. unfold JS.band.
  rewrite !(ToInt32_small 61440), !(ToInt32_small 448), !(ToInt32_small 56),
    !(ToInt32_small 7) by lia.
  apply mode_sum.
Qed.

(** The shifted word, for an unsigned 32-bit attribute word: the high half,
    sign-extended when bit 31 is set. *)
Lemma sar16_uint32 x :
  0 <= x < 2 ^ 32 ->
  JS.sar x 16 = if x <? 2 ^ 31 then x / 2 ^ 16 else x / 2 ^ 16 - 2 ^ 16.
Proof.
  intros Hx. unfold JS.sar, JS.ToInt32.
  rewrite Z.shiftr_div_pow2 by lia.
  destruct (Z.ltb_spec x (2 ^ 31)) as [Hlt | Hge].
  - rewrite Z.mod_small by lia. f_equal. lia.
  - replace ((x + 2 ^ 31) mod 2 ^ 32) with (x - 2 ^ 31).
    + replace (x - 2 ^ 31 - 2 ^ 31) with (x + (- 2 ^ 16) * 2 ^ 16) by lia.
      rewrite Z.div_add by lia. lia.
    + symmetry. rewrite <- (Z.mod_add _ (-1)) by lia.
      rewrite Z.mod_small; lia.
Qed.


(** C3, as amended.  For an unsigned 32-bit attribute word, the mode is
    0o100644 when the high 16 bits are zero, and otherwise the high 16 bits
    masked with 0o170777: the file type and the nine permission bits are
    kept, the setuid, setgid and sticky bits (0o7000) are dropped. *)
Theorem modeFromEntry_high_bits (entry : Entry)
    (Hx : 0 <= externalFileAttributes entry < 2 ^ 32) :
  let high := externalFileAttributes entry / 2 ^ 16 in
  modeFromEntry entry = if high =? 0 then 33188 else Z.land high 61951.
Proof.
  intros high. rewrite modeFromEntry_unfold. cbv zeta.
  rewrite (sar16_uint32 _ Hx). fold high.
  assert (Hh : 0 <= high < 2 ^ 16).
  { unfold high. split; [apply Z.div_pos; lia|]. apply Z.div_lt_upper_bound; lia. }
  destruct (Z.ltb_spec (externalFileAttributes entry) (2 ^ 31)) as [Hlt | Hge].
  - unfold JS.or_else. destruct (Z.eqb_spec high 0) as [-> | Hne].
    + reflexivity.
    + rewrite ToInt32_small by lia. reflexivity.
  - assert (Hhi : 2 ^ 15 <= high).
    { unfold high. apply Z.div_le_lower_bound; lia. }
    unfold JS.or_else.
    destruct (Z.eqb_spec (high - 2 ^ 16) 0) as [Hz | _]; [lia|].
    destruct (Z.eqb_spec high 0) as [Hz | _]; [lia|].
    rewrite ToInt32_small by lia.
    rewrite (land_low16 (high - 2 ^ 16)), (land_low16 high) by lia.
    f_equal.
    replace (high - 2 ^ 16) with (high + (-1) * 2 ^ 16) by lia.
    apply Z.mod_add. lia.
Qed.

(** A mode is a 16-bit value, whatever the attribute word. *)
Lemma modeFromEntry_range entry : 0 <= modeFromEntry entry < 2 ^ 16.
Proof.
  rewrite modeFromEntry_unfold. cbv zeta.
  set (a := JS.ToInt32 _).
  assert (H : Z.land a 61951 = Z.land a 61951 mod 2 ^ 16).
  { rewrite <- Z.land_ones by lia. rewrite <- Z.land_assoc. reflexivity. }
  rewrite H. apply Z.mod_pos_bound. lia.
Qed.

Lemma isSymlink_mode entry :
  isSymlink (modeFromEntry entry) = true <->
  Z.land (modeFromEntry entry) 61440 = 40960.
Proof.
  unfold isSymlink, JS.band.
  pose proof (modeFromEntry_range entry) as Hr.
  rewrite !ToInt32_small by lia.
  apply Z.eqb_eq.
Qed.

Lemma symlinkToFile_policy e :
  symlinkToFile e = false <->
  platform e <> "win32"%string \/
  exists o, options e = Some o /\ symlinkAsFileOnWindows o = Some false.
Proof.
  unfold symlinkToFile.
  destruct (String.eqb_spec (platform e) "win32") as [Hw | Hw].
  - destruct (options e) as [o|].
    + destruct (symlinkAsFileOnWindows o) as [[]|] eqn:Ho.
      * split; [done|]. intros [? | (o' & Heq & Hf)]; [done|]. congruence.
      * split; [|done]. intros _. right. by exists o.
      * split; [done|]. intros [? | (o' & Heq & Hf)]; [done|]. congruence.
    + split; [done|]. intros [? | (o' & Heq & Hf)]; [done|]. congruence.
  - split; [|done]. intros _. by left.
Qed.

End Mode.

Opaque modeFromEntry isSymlink symlinkToFile.

(** ** Runs *)

Lemma run_app s evs1 evs2 : run s (evs1 ++ evs2) = run (run s evs1) evs2.
Proof. apply fold_left_app. Qed.

Lemma run_cons s ev evs : run s (ev :: evs) = run (step s ev) evs.
Proof. reflexivity. Qed.

Lemma run_snoc s evs ev : run s (evs ++ [ev]) = step (run s evs) ev.
Proof. rewrite run_app. reflexivity. Qed.

(** A property that every event keeps holds after every run. *)
Lemma run_invariant (P : State -> Prop) :
  (forall s ev, P s -> P (step s ev)) ->
  forall evs s, P s -> P (run s evs).
Proof.
  intros Hstep evs. induction evs as [|ev evs IH]; intros s Hs; [exact Hs|].
  rewrite run_cons. apply IH, Hstep, Hs.
Qed.

(** Unfold the engine down to the setters, then split on every test. *)
Ltac unfold_engine :=
  repeat progress unfold step, with_task, folder_settled, stream_settled, settle_write,
    read_data, read_end, read_error, write_close, write_error, symlink_settled,
    writeEntryToFile, finish, count_entry, catch_entry, handleEntry,
    opened, error_listener, close_listener, after_rimraf,
    closeZip, readEntry, resolve, reject, call, set_task, add_task in *.

Ltac split_cases :=
  repeat (cbn in *; try done; case_match; subst);
  cbn in *; repeat split; try done; try congruence;
  try match goal with H : result ?x = _ |- context [result ?x] => rewrite H end;
  cbn; try done; try congruence.

(** ** Cancellation masks errors *)

Lemma cancel_canceled_listening s :
  phase s = Listening -> masked (result s) -> canceled_listening (cancel s).
Proof.
  unfold canceled_listening, cancel, invoke_cancelCallback. unfold_engine.
  intros Hp Hr. split_cases.
Qed.

Lemma callback_canceled_listening acts : forall s s' threw,
  callback acts s = (s', threw) -> canceled_listening s -> canceled_listening s'.
Proof.
  induction acts as [|a acts IH]; intros s s' threw Hc Hs; cbn in Hc.
  - congruence.
  - destruct a.
    + eapply IH; [exact Hc|]. exact Hs.
    + eapply IH; [exact Hc|]. destruct Hs as (Hp & _ & Hr).
      apply cancel_canceled_listening; assumption.
    + congruence.
Qed.

Lemma entry_listener_canceled_listening en acts s :
  canceled_listening s -> canceled_listening (entry_listener en acts s).
Proof.
  intros Hs. unfold entry_listener, onEntryCallback.
  set (s0 := set_entryEvent _ s).
  assert (H0 : canceled_listening s0) by exact Hs.
  assert (Hcb : forall s' threw,
             match options (env s0) with
             | Some o =>
                 if onEntry o then
                   callback acts
                     (call [OnEntry (entryName (entryEvent s0)) (entryCount (entryEvent s0))]
                        s0)
                 else (s0, false)
             | None => (s0, false)
             end = (s', threw) -> canceled_listening s').
  { intros s' threw. repeat case_match; intros Heq; try (injection Heq as <- <-; exact H0).
    eapply callback_canceled_listening; [exact Heq|]. exact H0. }
  destruct (match options (env s0) with Some _ => _ | None => _ end) as [s' threw].
  specialize (Hcb s' threw eq_refl). clear H0. destruct Hcb as (Hp & Hc & Hr).
  unfold canceled_listening. unfold_engine. split_cases.
Qed.

Lemma step_canceled_listening s ev :
  canceled_listening s -> canceled_listening (step s ev).
Proof.
  intros Hs.
  destruct ev;
    try (destruct Hs as (Hp & Hc & Hr); unfold canceled_listening;
         unfold_engine; split_cases; fail).
  - destruct Hs as (Hp & Hc & Hr). apply cancel_canceled_listening; assumption.
  - unfold step. destruct Hs as (Hp & Hc & Hr). rewrite Hp.
    destruct (_ && _); [|by repeat split].
    match goal with |- context [onEntryListener ?x] => destruct (onEntryListener x) end.
    + apply entry_listener_canceled_listening. by repeat split.
    + by repeat split.
Qed.

(** C1, as amended.  Once the executor of the returned promise has run, a
    rejection issued while the cancellation flag is set is the Canceled
    error, whatever error the reader, the filesystem or a stream reported:
    from a state where the promise is pending and the flag is set, and from a
    state where it is pending and cancel() is called, no run of events leaves
    the promise rejected with anything but [canceled]. *)
Theorem cancellation_masks_errors (s : State) (evs : list Event)
    (Hp : phase s = Listening) (Hr : result s = Pending) :
  (isCanceled s = true -> masked (result (run s evs))) /\
  masked (result (run (cancel s) evs)).
Proof.
  assert (Hrun : forall s0, canceled_listening s0 -> masked (result (run s0 evs))).
  { intros s0 H0. apply (run_invariant canceled_listening); [|exact H0].
    intros s1 ev. apply step_canceled_listening. }
  split.
  - intros Hc. apply Hrun. unfold canceled_listening. rewrite Hr. done.
  - apply Hrun, cancel_canceled_listening; [exact Hp|]. by rewrite Hr.
Qed.

(** ** Counting runs *)

Section Tally.
Context {A : Type} (p : A -> bool).
Implicit Types (l : list A) (t : A).

Lemma tally_app l1 l2 : tally p (l1 ++ l2) = tally p l1 + tally p l2.
Proof. induction l1 as [|t l1 IH]; cbn; [done|]. rewrite IH. lia. Qed.

Lemma tally_alter f i l t :
  l !! i = Some t ->
  tally p (alter f i l) + (if p t then 1 else 0) =
  tally p l + (if p (f t) then 1 else 0).
Proof.
  revert i. induction l as [|a l IH]; intros [|i] Hl; cbn in *; try done.
  - injection Hl as ->. lia.
  - specialize (IH i Hl). lia.
Qed.

Lemma tally_le_length l : tally p l <= length l.
Proof. induction l as [|t l IH]; cbn; [done|]. destruct (p t); lia. Qed.

Lemma tally_lookup_length i l t :
  l !! i = Some t -> tally p l + (if p t then 0 else 1) <= length l.
Proof.
  revert i. induction l as [|a l IH]; intros [|i] Hl; cbn in *; try done.
  - injection Hl as ->. pose proof (tally_le_length l). destruct (p t); lia.
  - specialize (IH i Hl). destruct (p a); lia.
Qed.

Lemma tally_le (q : A -> bool) l :
  (forall t, p t = true -> q t = true) -> tally p l <= tally q l.
Proof.
  intros Hpq. induction l as [|t l IH]; cbn; [done|].
  specialize (Hpq t). destruct (p t), (q t); try lia.
  all: try (discriminate Hpq; reflexivity).
Qed.
End Tally.

(** ** What a call of onEntry can do to the engine

    The callback may call [preventDefault] and [cancel]; [cancel] may destroy
    the file stream of the write in flight. *)

Lemma same_run_refl l : Forall2 same_run l l.
Proof. induction l; constructor; [by left|done]. Qed.

Lemma destroy_idem t : destroy (destroy t) = destroy t.
Proof. unfold destroy. destruct t as [? ? ? ? []]; reflexivity. Qed.

Lemma same_run_trans l1 l2 l3 :
  Forall2 same_run l1 l2 -> Forall2 same_run l2 l3 -> Forall2 same_run l1 l3.
Proof.
  intros H12. revert l3. induction H12 as [|t1 t2 l1 l2 Ht _ IH]; intros l3 H23.
  - inversion H23. constructor.
  - inversion H23 as [|? t3 ? l3' Ht' Hl']; subst. constructor; [|by apply IH].
    destruct Ht as [->| ->], Ht' as [->| ->]; unfold same_run; rewrite ?destroy_idem; auto.
Qed.

Lemma same_run_alter i l : Forall2 same_run l (alter destroy i l).
Proof.
  revert i. induction l as [|t l IH]; intros [|i]; cbn; constructor;
    try (by left); try (by right); try apply same_run_refl. apply IH.
Qed.

Lemma undisturbed_refl s : undisturbed s s.
Proof.
  constructor; try done; try (by left); [apply same_run_refl|].
  exists []. by rewrite app_nil_r.
Qed.

Lemma undisturbed_trans s1 s2 s3 :
  undisturbed s1 s2 -> undisturbed s2 s3 -> undisturbed s1 s3.
Proof.
  intros [? ? ? ? ? ? ? ? ? ? ? ? Hcb0 Ht0 He0] [? ? ? ? ? ? ? ? ? ? ? ? Hcb1 Ht1 He1].
  constructor; try congruence; try (by auto).
  - destruct Hcb0 as [H0|[H0 H0']], Hcb1 as [H1|[H1 H1']].
    + left; congruence.
    + by right.
    + right. split; [congruence|by auto].
    + by right.
  - eapply same_run_trans; eassumption.
  - destruct He0 as (es1 & He0 & H1), He1 as (es2 & He1 & H2).
    exists (es1 ++ es2). rewrite He1, He0, app_assoc, forallb_app, H1, H2. done.
Qed.

Ltac destruct_undisturbed H :=
  destruct H as [Uenv Uphase Uresult Utotal Ucount Uread Ureq UonceE UonceC Ulis Uens
                   Ucanc Ucb Utasks Ueff].

Lemma undisturbed_cancel s : undisturbed s (cancel s).
Proof.
  unfold cancel, invoke_cancelCallback. unfold_engine.
  repeat (cbn; case_match; subst); cbn;
    constructor; cbn; try done; try (by left); try (by right);
    try apply same_run_refl; try apply same_run_alter;
    solve [ exists []; by rewrite app_nil_r
          | rewrite <- ?app_assoc; eexists; split; reflexivity ].
Qed.

Lemma undisturbed_entryEvent s ev : undisturbed s (set_entryEvent ev s).
Proof.
  constructor; cbn; try done; try (by left); [apply same_run_refl|].
  exists []. by rewrite app_nil_r.
Qed.

Lemma callback_undisturbed acts : forall s s' threw,
  callback acts s = (s', threw) -> undisturbed s s'.
Proof.
  induction acts as [|a acts IH]; intros s s' threw Hc; cbn in Hc.
  - injection Hc as <- _. apply undisturbed_refl.
  - destruct a.
    + eapply undisturbed_trans; [|eapply IH, Hc]. apply undisturbed_entryEvent.
    + eapply undisturbed_trans; [|eapply IH, Hc]. apply undisturbed_cancel.
    + injection Hc as <- _. apply undisturbed_refl.
Qed.

Lemma onEntryCallback_undisturbed acts s s' threw :
  onEntryCallback acts s = (s', threw) -> undisturbed s s'.
Proof.
  unfold onEntryCallback. repeat case_match; intros Hc;
    try (injection Hc as <- _; apply undisturbed_refl).
  eapply undisturbed_trans; [|eapply callback_undisturbed, Hc].
  constructor; cbn; try done; try (by left); [apply same_run_refl|].
  eexists; split; [reflexivity|reflexivity].
Qed.

(** The three ways the listener's synchronous part ends. *)
Lemma entry_listener_cases en acts s :
  let name := replace_backslash (fileName en) in
  exists s',
    undisturbed s s' /\
    (entry_listener en acts s = add_task (new_task name en Thrown) s' \/
     entry_listener en acts s =
       count_entry (add_task (new_task name en Skipped)
                      (readEntry (set_entryEvent (reset (entryEvent s')) s'))) \/
     (isPrevented (entryEvent s') = false /\
      entry_listener en acts s = handleEntry en name s')).
Proof.
  intros name. unfold entry_listener. fold name.
  destruct (onEntryCallback acts _) as [s' threw] eqn:Hcb.
  exists s'. split.
  - eapply undisturbed_trans; [|eapply onEntryCallback_undisturbed, Hcb].
    apply undisturbed_entryEvent.
  - destruct threw; [by left|].
    destruct (isPrevented (entryEvent s')) eqn:Hprev; [right; by left|].
    right; right. done.
Qed.

(** ** The reachable states *)

Lemma consistent_extract e : consistent (extract e).
Proof.
  unfold extract, after_rimraf. unfold_engine.
  repeat (cbn; case_match); constructor; cbn; try done; try lia.
Qed.

Section SameRun.
Variable p : Task -> bool.
Hypothesis p_destroy : forall t, p (destroy t) = p t.

Lemma tally_same_run l l' : Forall2 same_run l l' -> tally p l' = tally p l.
Proof.
  induction 1 as [|t t' l l' Ht _ IH]; cbn; [done|].
  rewrite IH. destruct Ht as [->| ->]; by rewrite ?p_destroy.
Qed.
End SameRun.

Lemma may_advance_destroy t : may_advance (destroy t) = may_advance t.
Proof. destruct t as [? ? ? ? []]; reflexivity. Qed.
Lemma accounted_destroy t : accounted (destroy t) = accounted t.
Proof. destruct t as [? ? ? ? []]; reflexivity. Qed.
Lemma stream_open_destroy t : stream_open (destroy t) = stream_open t.
Proof. destruct t as [? ? ? ? []]; reflexivity. Qed.
Lemma task_wf_destroy t : task_wf t -> task_wf (destroy t).
Proof. destruct t as [? ? ? ? []]; done. Qed.

Lemma task_wf_same_run l l' :
  Forall2 same_run l l' -> Forall task_wf l -> Forall task_wf l'.
Proof.
  induction 1 as [|t t' l l' Ht _ IH]; [done|].
  intros Hl. inversion Hl; subst. constructor; [|by apply IH].
  destruct Ht as [->| ->]; [done|]. by apply task_wf_destroy.
Qed.

Ltac tally_facts :=
  repeat match goal with
  | H : tasks ?s !! ?i = Some ?t |- context [tally ?p (alter ?f ?i (tasks ?s))] =>
      lazymatch goal with
      | _ : tally p (alter f i (tasks s)) + _ = _ |- _ => fail
      | _ => pose proof (tally_alter p f i (tasks s) t H)
      end
  end.

Ltac task_facts :=
  repeat match goal with
  | H : tasks ?s !! ?i = Some ?t, Hwf : Forall task_wf (tasks ?s) |- _ =>
      lazymatch goal with
      | _ : task_wf t |- _ => fail
      | _ => pose proof (Forall_lookup_1 _ _ _ _ Hwf H);
             pose proof (tally_lookup_length accounted _ _ _ H)
      end
  end.

Ltac cases := repeat (cbn in *; try done; case_match; subst); cbn in *.

Ltac unfold_preds :=
  unfold may_advance, accounted, stream_open, task_wf in *; cbn in *;
  repeat match goal with
  | H : handler ?t = _ |- _ => rewrite H in *
  | H : readStream ?t = _ |- _ => rewrite H in *
  end; cbn in *.

Ltac solve_dormant :=
  match goal with
  | Hd : phase ?s <> Listening -> _ |- phase ?s <> Listening -> _ =>
      let Hph := fresh in
      intros Hph; exfalso; destruct (Hd Hph) as (?Ht & _);
      match goal with
      | Ht : tasks s = [], Hl : tasks s !! _ = Some _ |- _ =>
          rewrite Ht in Hl; discriminate Hl
      end
  end.

Ltac solve_wf :=
  match goal with
  | |- Forall task_wf (alter _ _ _) =>
      apply Forall_alter; [assumption|];
      let x := fresh in let Hx := fresh in let Hw := fresh in
      intros x Hx Hw; simplify_eq; unfold_preds;
      try done; repeat case_match; try done; congruence
  end.

Ltac nat_facts :=
  repeat match goal with
  | H : (_ =? _) = true |- _ => apply Nat.eqb_eq in H
  | H : (_ =? _) = false |- _ => apply Nat.eqb_neq in H
  | H : (_ <? _) = true |- _ => apply Nat.ltb_lt in H
  | H : (_ <? _) = false |- _ => apply Nat.ltb_ge in H
  | H : ?P -> _, H' : ?P |- _ => specialize (H H')
  end.

Ltac solve_con :=
  try done;
  rewrite ?list_alter_alter_eq in *;
  try solve_dormant;
  try solve_wf;
  intros;
  rewrite ?length_alter, ?length_app, ?tally_app in *; cbn in *;
  task_facts; tally_facts; unfold_preds; nat_facts;
  try lia; try congruence;
  repeat case_match; try lia; try done.

Lemma consistent_task_event s ev :
  match ev with
  | FolderSettled _ _ | StreamSettled _ _ | ReadData _ _ | ReadEnd _
  | ReadError _ _ | WriteClose _ | WriteError _ _ | SymlinkSettled _ _ => True
  | _ => False
  end ->
  consistent s -> consistent (step s ev).
Proof.
  intros Hev Hs. 
  destruct ev; try done.
  all: unfold_engine; cases; try done.
  all: destruct Hs as [Hd Hone Hp Hc Hr Hres Hwf]; constructor; cbn.
  all: solve_con.
Qed.

Lemma length_same_run l l' : Forall2 same_run l l' -> length l' = length l.
Proof. intros H. symmetry. eapply Forall2_length, H. Qed.

Lemma same_run_nil l' : Forall2 same_run [] l' -> l' = [].
Proof. by inversion 1. Qed.

(** A callback that leaves the prevented flag alone keeps the state
    consistent. *)
Lemma consistent_undisturbed s s' :
  undisturbed s s' ->
  isPrevented (entryEvent s') = isPrevented (entryEvent s) ->
  tally is_OnEntry (effects s') = tally is_OnEntry (effects s) ->
  consistent s -> consistent s'.
Proof.
  intros Hund Hprev Hquiet [Hd Hone Hp Hc Hr Hres Hwf].
  destruct_undisturbed Hund.
  pose proof (tally_same_run may_advance may_advance_destroy _ _ Utasks) as Hm.
  pose proof (tally_same_run accounted accounted_destroy _ _ Utasks) as Ha.
  pose proof (length_same_run _ _ Utasks) as Hlen.
  constructor.
  - rewrite Uphase, Ureq, Ucount, Uread, Uresult, Hprev,
      Hquiet, Ulis.
    intros Hph. destruct (Hd Hph) as (Ht & ?). split; [|done].
    rewrite Ht in Utasks. by apply same_run_nil.
  - rewrite Ureq, Hm. done.
  - rewrite Ureq, Hm, Hprev. done.
  - rewrite Ucount, Ha. done.
  - rewrite Uread, Utotal, Hlen. done.
  - rewrite Uresult, Ucount, Utotal. done.
  - eapply task_wf_same_run; eassumption.
Qed.

Lemma cancel_entryEvent s : entryEvent (cancel s) = entryEvent s.
Proof. unfold cancel, invoke_cancelCallback. unfold_engine. repeat (cbn; case_match); done. Qed.

Lemma cancel_onEntry_calls s :
  tally is_OnEntry (effects (cancel s)) = tally is_OnEntry (effects s).
Proof.
  unfold cancel, invoke_cancelCallback. unfold_engine.
  repeat (cbn; case_match); cbn; rewrite ?tally_app; cbn; lia.
Qed.

Lemma consistent_cancel s : consistent s -> consistent (cancel s).
Proof.
  apply consistent_undisturbed; [apply undisturbed_cancel| |].
  - by rewrite cancel_entryEvent.
  - apply cancel_onEntry_calls.
Qed.

Ltac use_dormant :=
  try match goal with
  | Hd : phase ?s <> Listening -> _, H : phase ?s = _ |- _ =>
      let Hph := fresh in
      assert (Hph : phase s <> Listening) by (rewrite H; discriminate);
      destruct (Hd Hph) as (?Ht & ?Hq & ?Hn & ?Hr & ?Hi & ?Hres & ?Hpend & ?Hquiet & ?Hlis);
      clear Hd
  end.

Lemma consistent_reader_event s ev :
  match ev with
  | RimrafSettled _ | EnsureTargetSettled _ | OpenSettled _
  | ReaderError _ | ReaderClose => True
  | _ => False
  end ->
  consistent s -> consistent (step s ev).
Proof.
  intros Hev Hs.
  destruct ev; try done.
  all: unfold_engine; cases; try done.
  all: destruct Hs as [Hd Hone Hp Hc Hr Hres Hwf]; use_dormant.
  all: constructor; cbn; try done.
  all: intros; try (match goal with Ht : tasks _ = [] |- _ => rewrite Ht in * end);
    cbn in *; nat_facts; try lia; try congruence.
  all: try (pose proof (tally_le_length accounted (tasks s)); lia).
  all: repeat split; rewrite ?tally_app; cbn; try lia; try done.
  all: intros; try (apply Hpend; rewrite H); congruence.
Qed.

Lemma consistent_entry s en acts :
  consistent s -> consistent (step s (EntryRead en acts)).
Proof.
  intros Hs. unfold step.
  destruct (phase s) eqn:Hph; try done.
  destruct ((0 <? readRequests s) && (entriesRead s <? total s)) eqn:Hg; [|done].
  apply andb_true_iff in Hg as [Hq Hlt]. apply Nat.ltb_lt in Hq, Hlt.
  destruct Hs as [Hd Hone Hp Hc Hr Hres Hwf].
  assert (Hprev : isPrevented (entryEvent s) = false).
  { destruct (isPrevented (entryEvent s)); [|done]. specialize (Hp eq_refl). lia. }
  set (s0 := set_entriesRead _ _).
  destruct (onEntryListener s0).
  2: { constructor; cbn; intros; try done; try lia; try congruence; auto. }
  destruct (entry_listener_cases en acts s0) as (s' & Hund & Hcase).
  destruct_undisturbed Hund.
  pose proof (tally_same_run may_advance may_advance_destroy _ _ Utasks) as Hm.
  pose proof (tally_same_run accounted accounted_destroy _ _ Utasks) as Ha.
  pose proof (length_same_run _ _ Utasks) as Hlen.
  pose proof (task_wf_same_run _ _ Utasks Hwf) as Hwf'.
  pose proof (tally_le_length accounted (tasks s)) as Hle.
  cbn in *.
  destruct Hcase as [-> | [-> | [Hnp ->]]]; unfold_engine; cases.
  all: constructor; cbn; rewrite ?tally_app, ?length_app; cbn.
  all: try (apply Forall_app; split; [assumption|by repeat constructor]).
  all: intros; rewrite ?Uresult in *; nat_facts; try lia; try congruence.
Qed.

Lemma consistent_step s ev : consistent s -> consistent (step s ev).
Proof.
  intros Hs. destruct ev.
  - by apply consistent_cancel.
  - by apply consistent_reader_event.
  - by apply consistent_reader_event.
  - by apply consistent_reader_event.
  - by apply consistent_entry.
  - by apply consistent_reader_event.
  - by apply consistent_reader_event.
  - by apply consistent_task_event.
  - by apply consistent_task_event.
  - by apply consistent_task_event.
  - by apply consistent_task_event.
  - by apply consistent_task_event.
  - by apply consistent_task_event.
  - by apply consistent_task_event.
  - by apply consistent_task_event.
Qed.

Lemma consistent_run e evs : consistent (run (extract e) evs).
Proof.
  apply (run_invariant consistent); [|apply consistent_extract].
  intros s ev. apply consistent_step.
Qed.

(** ** Folders come before streams *)

Lemma task_fs_mono s s' t :
  env s' = env s ->
  (forall x, x ∈ effects s -> x ∈ effects s') ->
  (forall x, x ∈ ensured s -> x ∈ ensured s') ->
  task_fs s t -> task_fs s' t.
Proof.
  intros He Hf Hn. unfold task_fs, filePath. rewrite He.
  repeat case_match; intuition auto.
Qed.

Lemma task_fs_destroy s t : task_fs s t -> task_fs s (destroy t).
Proof. destruct t as [? ? ? ? []]; done. Qed.

Lemma folders_first_extract e : folders_first (extract e).
Proof.
  unfold extract, after_rimraf. unfold_engine.
  repeat (cbn; case_match); constructor.
Qed.

Ltac elems :=
  repeat (rewrite elem_of_app in * || rewrite elem_of_cons in * );
  intuition (auto; try congruence).

Ltac solve_mono :=
  eapply Forall_impl; [eassumption|];
  let x := fresh in let Hx := fresh in
  intros x Hx; cbn; revert Hx; apply task_fs_mono; cbn;
  [reflexivity | intros; elems | intros; elems].

Ltac solve_fs :=
  try done;
  unfold folders_first in *; cbn;
  rewrite ?list_alter_alter_eq;
  lazymatch goal with
  | |- Forall _ (alter _ _ _) =>
      apply Forall_alter; [solve_mono|];
      let x := fresh in let Hx := fresh in let Hw := fresh in
      intros x Hx Hw; simplify_eq;
      match goal with
      | Hs : Forall (task_fs ?s) (tasks ?s), H : tasks ?s !! _ = Some ?t |- _ =>
          pose proof (Forall_lookup_1 _ _ _ _ Hs H) as Ht
      end;
      clear Hw;
      unfold task_fs, is_dir, filePath in *; cbn in *;
      repeat match goal with
      | H : handler ?t = _ |- _ => rewrite H in *
      | H : readStream ?t = _ |- _ => rewrite H in *
      end;
      repeat case_match; try done; elems
  | |- Forall _ _ => solve_mono
  end.

Lemma folders_first_task_event s ev :
  match ev with
  | FolderSettled _ _ | StreamSettled _ _ | ReadData _ _ | ReadEnd _
  | ReadError _ _ | WriteClose _ | WriteError _ _ | SymlinkSettled _ _ => True
  | _ => False
  end ->
  folders_first s -> folders_first (step s ev).
Proof.
  intros Hev Hs.
  destruct ev; try done.
  all: unfold_engine; cases; try done.
  all: solve_fs.
Qed.

Lemma folders_first_undisturbed s s' :
  undisturbed s s' -> folders_first s -> folders_first s'.
Proof.
  intros Hund Hs. destruct_undisturbed Hund. unfold folders_first in *.
  destruct Ueff as (es & Hes & _).
  assert (Hmono : Forall (task_fs s') (tasks s)).
  { eapply Forall_impl; [exact Hs|]. intros t. apply task_fs_mono; [done| |].
    - intros x Hx. rewrite Hes. apply elem_of_app. by left.
    - intros x. by rewrite Uens. }
  clear Hs. induction Utasks as [|t t' l l' Ht _ IH]; [done|].
  inversion Hmono; subst. constructor; [|by apply IH].
  destruct Ht as [->| ->]; [done|]. by apply task_fs_destroy.
Qed.

Lemma folders_first_reader_event s ev :
  match ev with
  | RimrafSettled _ | EnsureTargetSettled _ | OpenSettled _
  | ReaderError _ | ReaderClose => True
  | _ => False
  end ->
  folders_first s -> folders_first (step s ev).
Proof.
  intros Hev Hs.
  destruct ev; try done.
  all: unfold_engine; cases; try done.
  all: solve_fs.
Qed.

Lemma folders_first_entry s en acts :
  folders_first s -> folders_first (step s (EntryRead en acts)).
Proof.
  intros Hs. unfold step.
  destruct (phase s) eqn:Hph; try done.
  destruct (_ && _); [|done].
  set (s0 := set_entriesRead _ _).
  assert (H0 : folders_first s0) by exact Hs.
  destruct (onEntryListener s0); [|done].
  destruct (entry_listener_cases en acts s0) as (s' & Hund & Hcase).
  pose proof (folders_first_undisturbed _ _ Hund H0) as Hs'.
  destruct Hcase as [-> | [-> | [Hnp ->]]]; unfold_engine; cases.
  all: unfold folders_first in *; cbn.
  all: apply Forall_app; split; [solve_mono|].
  all: repeat constructor; unfold task_fs, is_dir, filePath; cbn.
  all: repeat case_match; try done; elems.
Qed.

Lemma folders_first_step s ev : folders_first s -> folders_first (step s ev).
Proof.
  intros Hs. destruct ev.
  - eapply folders_first_undisturbed; [apply undisturbed_cancel|done].
  - by apply folders_first_reader_event.
  - by apply folders_first_reader_event.
  - by apply folders_first_reader_event.
  - by apply folders_first_entry.
  - by apply folders_first_reader_event.
  - by apply folders_first_reader_event.
  - by apply folders_first_task_event.
  - by apply folders_first_task_event.
  - by apply folders_first_task_event.
  - by apply folders_first_task_event.
  - by apply folders_first_task_event.
  - by apply folders_first_task_event.
  - by apply folders_first_task_event.
  - by apply folders_first_task_event.
Qed.

Lemma folders_first_run e evs : folders_first (run (extract e) evs).
Proof.
  apply (run_invariant folders_first); [|apply folders_first_extract].
  intros s ev. apply folders_first_step.
Qed.

(** ** What a callback does, read off its actions *)

Lemma callback_throws acts : forall s, snd (callback acts s) = throws acts.
Proof.
  induction acts as [|[] acts IH]; intros s; cbn; try done; apply IH.
Qed.

Lemma callback_prevents acts : forall s,
  throws acts = false ->
  isPrevented (entryEvent (fst (callback acts s))) =
  isPrevented (entryEvent s) || prevents acts.
Proof.
  induction acts as [|[] acts IH]; intros s Hno; cbn in *; try done.
  - by rewrite orb_false_r.
  - rewrite IH by done. cbn. by rewrite orb_true_r.
  - rewrite IH by done. by rewrite cancel_entryEvent.
Qed.

Lemma onEntryCallback_throws acts s :
  has_onEntry (env s) = true -> snd (onEntryCallback acts s) = throws acts.
Proof.
  unfold has_onEntry, onEntryCallback. destruct (options (env s)) as [o|]; [|done].
  intros ->. apply callback_throws.
Qed.

Lemma onEntryCallback_prevents acts s :
  has_onEntry (env s) = true -> throws acts = false ->
  isPrevented (entryEvent (fst (onEntryCallback acts s))) =
  isPrevented (entryEvent s) || prevents acts.
Proof.
  unfold has_onEntry, onEntryCallback. destruct (options (env s)) as [o|]; [|done].
  intros -> Hno. by rewrite callback_prevents.
Qed.

Lemma silent_tally (p : Effect -> bool) es :
  (forall x, silent x = true -> p x = false) ->
  forallb silent es = true -> tally p es = 0.
Proof.
  intros Hp. induction es as [|x es IH]; cbn; [done|].
  intros [Hx Hes]%andb_true_iff. rewrite (Hp x Hx). by apply IH.
Qed.

Lemma undisturbed_tally (p : Effect -> bool) s s' :
  (forall x, silent x = true -> p x = false) ->
  undisturbed s s' -> tally p (effects s') = tally p (effects s).
Proof.
  intros Hp [_ _ _ _ _ _ _ _ _ _ _ _ _ _ (es & -> & Hes)].
  rewrite tally_app, (silent_tally p es Hp Hes). lia.
Qed.

Lemma step_entry_deliverable s en acts :
  deliverable s ->
  step s (EntryRead en acts) =
  entry_listener en acts
    (set_entriesRead (S (entriesRead s)) (set_readRequests (pred (readRequests s)) s)).
Proof.
  intros (Hp & Hl & Hq & Hr). unfold step. rewrite Hp.
  apply Nat.ltb_lt in Hq, Hr. rewrite Hq, Hr. cbn. by rewrite Hl.
Qed.

(** C10.  When the onEntry callback throws, the listener's body ends before
    its try block: the promise of extract is left as it was, the entry is not
    counted, no readEntry is issued and nothing is materialized; the run is
    over without its catch block having run. *)
Theorem onEntry_throw_escapes (s : State) (en : Entry) (acts : list CallbackAction)
    (Hs : deliverable s) (Hcb : has_onEntry (env s) = true)
    (Hthrow : throws acts = true) :
  let s' := step s (EntryRead en acts) in
  result s' = result s /\
  extractedEntriesCount s' = extractedEntriesCount s /\
  tally is_ReadEntry (effects s') = tally is_ReadEntry (effects s) /\
  tally materializes (effects s') = tally materializes (effects s) /\
  exists l, tasks s' = l ++ [new_task (replace_backslash (fileName en)) en Thrown] /\
            length l = length (tasks s).
Proof.
  cbv zeta. rewrite step_entry_deliverable by done.
  set (s0 := set_entriesRead _ _).
  unfold entry_listener.
  set (s1 := set_entryEvent _ s0).
  pose proof (onEntryCallback_throws acts s1 Hcb) as Hsnd.
  pose proof (onEntryCallback_undisturbed acts s1) as Hund.
  destruct (onEntryCallback acts s1) as [s' threw]. cbn in Hsnd. subst threw.
  specialize (Hund s' _ eq_refl). rewrite Hthrow.
  cbn. repeat split.
  - apply Hund.
  - apply Hund.
  - by rewrite (undisturbed_tally is_ReadEntry s1 s'); [|intros []|].
  - by rewrite (undisturbed_tally materializes s1 s'); [|intros []|].
  - exists (tasks s'). split; [done|]. symmetry.
    eapply (Forall2_length _ (tasks s1)), Hund.
Qed.

(** ** Where readEntry is called *)

Ltac calls_facts :=
  unfold readEntry_calls in *; cbn in *;
  rewrite ?tally_app in *; cbn in *.

Lemma readEntry_sources s ev :
  readEntry_calls (step s ev) <> readEntry_calls s ->
  advance_point s ev /\ 0 < readRequests (step s ev).
Proof.
  unfold advance_point.
  destruct ev.
  5: {
    unfold step. destruct (phase s) eqn:Hph; try done.
    destruct (_ && _); [|done].
    set (s0 := set_entriesRead _ _).
    destruct (onEntryListener s0) eqn:Hl; [|done].
    destruct (entry_listener_cases en acts s0) as (s' & Hund & Hcase).
    pose proof (undisturbed_tally is_ReadEntry s0 s' ltac:(by intros []) Hund) as Hcalls.
    destruct Hcase as [-> | [-> | [Hnp ->]]]; unfold_engine; cases; calls_facts;
      intros Hne; try lia.
    all: split; [|lia]; right; left; eexists _, _, _; split; reflexivity. }
  1: { intros Hne. exfalso. apply Hne. cbn.
       apply undisturbed_tally; [by intros []|apply undisturbed_cancel]. }
  all: unfold_engine; cases; calls_facts; intros Hne; try lia.
  all: split; [|lia].
  all: first
    [ left; by eauto
    | right; right; left; eexists _, _; split_and!; [done..|];
      unfold filePath; cbn; elems
    | right; right; right; by eauto ].
Qed.

Lemma stream_open_may_advance t : stream_open t = true -> may_advance t = true.
Proof. unfold stream_open, may_advance. by repeat case_match. Qed.

(** C2.  In every state the engine can reach, at most one run has an open
    read stream; and an event that makes the engine call readEntry is one of
    the four advance points (the first pull after open, the skip of a
    prevented entry, the resolved ensureFolder of a directory entry, the
    "end" of the current read stream), after which no run waits for a folder
    or a stream and no read stream is open. *)
Theorem one_entry_at_a_time (e : Env) (evs : list Event) :
  let s := run (extract e) evs in
  tally stream_open (tasks s) <= 1 /\
  forall ev,
    readEntry_calls (step s ev) <> readEntry_calls s ->
    advance_point s ev /\
    tally may_advance (tasks (step s ev)) = 0 /\
    tally stream_open (tasks (step s ev)) = 0.
Proof.
  intros s.
  assert (Hle : forall l, tally stream_open l <= tally may_advance l).
  { intros l. apply tally_le, stream_open_may_advance. }
  split.
  - pose proof (con_single _ (consistent_run e evs)) as H1.
    specialize (Hle (tasks s)). fold s in H1. lia.
  - intros ev Hne. destruct (readEntry_sources s ev Hne) as [Hadv Hreq].
    pose proof (con_single _ (consistent_step _ ev (consistent_run e evs))) as H1.
    fold s in H1. specialize (Hle (tasks (step s ev))).
    split; [done|]. lia.
Qed.

(** ** Counting entries *)

Lemma count_reaches_total s ev :
  result s = Pending ->
  extractedEntriesCount s <> total s ->
  extractedEntriesCount (step s ev) = total s ->
  result (step s ev) = Resolved.
Proof.
  intros Hres Hne.
  destruct ev.
  1: { cbn. rewrite (und_count _ _ (undisturbed_cancel s)). done. }
  4: {
    unfold step. destruct (phase s) eqn:Hph; try done.
    destruct (_ && _); [|done].
    set (s0 := set_entriesRead _ _).
    destruct (onEntryListener s0) eqn:Hl; [|done].
    destruct (entry_listener_cases en acts s0) as (s' & Hund & Hcase).
    destruct_undisturbed Hund.
    cbn in *.
    destruct Hcase as [-> | [-> | [Hnp ->]]]; unfold_engine; cases;
      intros; nat_facts; try lia; congruence. }
  all: unfold_engine; cases; intros; nat_facts; try lia; try congruence.
Qed.


(** ** The cancel callback *)

Lemma cancelCallback_cancel s : cancelCallback (cancel s) = None.
Proof.
  unfold cancel, invoke_cancelCallback. unfold_engine.
  repeat (cbn; case_match); done.
Qed.

Lemma isCanceled_cancel s : isCanceled (cancel s) = true.
Proof.
  unfold cancel, invoke_cancelCallback. unfold_engine.
  repeat (cbn; case_match); done.
Qed.

(** C4, as amended.  The engine has one slot for a cancel callback.  An
    event leaves the slot as it is, or empties it in the course of cancel(),
    or is the opening of the stream of run [i], which puts the callback of
    that write in the slot whatever was there.  cancel() always leaves the
    slot empty; the close of the file stream and the end of createSymlink,
    which complete a write, leave the slot as it is. *)
Theorem cancel_callback_slot (s : State) :
  (forall ev,
     cancelCallback (step s ev) = cancelCallback s \/
     (cancelCallback (step s ev) = None /\ isCanceled (step s ev) = true) \/
     (exists i, ev = StreamSettled i None /\ cancelCallback (step s ev) = Some i)) /\
  cancelCallback (step s UserCancel) = None /\
  (forall i, cancelCallback (step s (WriteClose i)) = cancelCallback s) /\
  (forall i r, cancelCallback (step s (SymlinkSettled i r)) = cancelCallback s).
Proof.
  split_and!.
  - intros ev. destruct ev.
    1: { right; left. split; [apply cancelCallback_cancel|apply isCanceled_cancel]. }
    4: {
      unfold step. destruct (phase s) eqn:Hph; try (by left).
      destruct (_ && _); [|by left].
      set (s0 := set_entriesRead _ _).
      destruct (onEntryListener s0) eqn:Hl; [|by left].
      destruct (entry_listener_cases en acts s0) as (s' & Hund & Hcase).
    destruct_undisturbed Hund.
      cbn in *.
      destruct Hcase as [-> | [-> | [Hnp ->]]]; unfold_engine; cases;
        destruct Ucb as [?|[? ?]]; auto. }
    all: unfold_engine; cases; eauto.
  - apply cancelCallback_cancel.
  - intros i. unfold_engine. by cases.
  - intros i r. unfold_engine. by cases.
Qed.

(** ** Cancellation while the archive is being opened *)

Lemma closed_at_open_step s ev :
  closed_at_open s ->
  closed_at_open (step s ev) /\ effects (step s ev) = effects s.
Proof.
  intros (Hp & Hc & Hl & Ht & Hz & Ho & Hr).
  unfold closed_at_open.
  destruct ev; unfold_engine; unfold cancel, invoke_cancelCallback; unfold_engine; cbn;
    rewrite ?Hp, ?Ht, ?Hz, ?Hc, ?Hl; cases;
    rewrite ?Hp, ?Ht, ?Hz, ?Hc, ?Hl; cbn; try (by split_and!).
  all: destruct Hr as [(? & ? & ?)|?]; split_and!; try done; try congruence; auto.
  all: right; congruence.
Qed.

Lemma closed_at_open_run evs : forall s,
  closed_at_open s ->
  closed_at_open (run s evs) /\ effects (run s evs) = effects s.
Proof.
  induction evs as [|ev evs IH]; intros s Hs; [done|].
  rewrite run_cons. destruct (closed_at_open_step s ev Hs) as [Hs' He].
  destruct (IH _ Hs') as [Hs'' He']. split; [done|congruence].
Qed.

(** C5.  If cancel() was called while the archive was being opened, then in
    the very step in which the open returns the engine closes the handle and
    drops it, after the one readEntry that line 115 issues before the check;
    the entry listener is never installed, so whatever events follow, no
    entry is handled and the engine makes no further call; the promise stays
    pending until the reader reports close (or an error) and is then rejected
    with the Canceled error: it is never resolved and never rejected with
    another error. *)
Theorem cancel_during_open (e : Env) (evs0 : list Event) (n : nat)
    (Hopen : phase (run (extract e) evs0) = AwaitOpen)
    (Hcanceled : isCanceled (run (extract e) evs0) = true) :
  let s := run (extract e) evs0 in
  let s1 := step s (OpenSettled (inr n)) in
  zipFile s1 = false /\ isOpen s1 = false /\ onEntryListener s1 = false /\
  effects s1 = effects s ++ [ReadEntry; CloseZip] /\
  result s1 = Pending /\
  (forall evs,
     tasks (run s1 evs) = [] /\ effects (run s1 evs) = effects s1 /\
     (result (run s1 evs) = Pending \/ result (run s1 evs) = Rejected canceled)) /\
  (forall evs, result (run s1 (evs ++ [ReaderClose])) = Rejected canceled) /\
  (forall evs err, result (run s1 (evs ++ [ReaderError err])) = Rejected canceled).
Proof.
  intros s s1. pose proof (consistent_run e evs0) as Hs. fold s in Hs, Hopen, Hcanceled.
  destruct (con_dormant _ Hs) as (Ht & _ & _ & _ & _ & _ & Hpend & _ & Hlis);
    [by rewrite Hopen|].
  specialize (Hpend ltac:(by rewrite Hopen)).
  assert (H1 : closed_at_open s1 /\ effects s1 = effects s ++ [ReadEntry; CloseZip]).
  { unfold s1, closed_at_open. unfold_engine. rewrite Hopen. cbn. rewrite Hcanceled. cbn.
    rewrite <- app_assoc. split_and!; try done. left. by rewrite Hpend. }
  destruct H1 as [Hc1 He1].
  assert (Hrun : forall evs, closed_at_open (run s1 evs) /\ effects (run s1 evs) = effects s1).
  { intros evs. by apply closed_at_open_run. }
  destruct Hc1 as (? & ? & ? & ? & ? & ? & Hr1).
  split_and!; try done.
  - unfold s1. unfold_engine. rewrite Hopen. cbn. rewrite Hcanceled. cbn.
    unfold reject. by rewrite Hpend.
  - intros evs. destruct (Hrun evs) as [(? & ? & ? & ? & ? & ? & Hr) ?].
    split_and!; try done. destruct Hr as [(? & ? & ?)|?]; auto.
  - intros evs. rewrite run_snoc. destruct (Hrun evs) as [(Hp & Hc & ? & ? & ? & ? & Hr) ?].
    unfold_engine. rewrite Hp. destruct Hr as [(Hr & Hcl & Her)|Hr].
    + rewrite Hcl. cbn. rewrite Hc. cbn. by rewrite Hr.
    + cases; congruence.
  - intros evs err. rewrite run_snoc.
    destruct (Hrun evs) as [(Hp & Hc & ? & ? & ? & ? & Hr) ?].
    unfold_engine. rewrite Hp. destruct Hr as [(Hr & Hcl & Her)|Hr].
    + rewrite Her. cbn. rewrite Hc. cbn. by rewrite Hr.
    + cases; congruence.
Qed.

(** ** An archive without entries *)

Lemma empty_listening_step s ev : empty_listening s -> empty_listening (step s ev).
Proof.
  intros (Hp & Hn & Ht & Hq). unfold empty_listening.
  destruct ev.
  1: { cbn. pose proof (undisturbed_cancel s) as Hund.
       destruct_undisturbed Hund.
       rewrite cancel_onEntry_calls, Uphase, Utotal.
       split_and!; try done. rewrite Ht in Utasks. by apply same_run_nil. }
  all: unfold_engine; rewrite ?Hp, ?Ht, ?Hn; cbn; rewrite ?Nat.ltb_irrefl, ?andb_false_r.
  all: cases; rewrite ?Hp, ?Ht, ?Hn; by split_and!.
Qed.

Lemma empty_pending_step s ev :
  undisturbing ev = true -> empty_pending s -> empty_pending (step s ev).
Proof.
  intros Hev (Hs & Hc & Hr). split; [by apply empty_listening_step|].
  destruct Hs as (Hp & Hn & Ht & Hq).
  destruct ev; try done.
  all: unfold_engine; rewrite ?Hp, ?Ht, ?Hn, ?Hc; cbn;
    rewrite ?Nat.ltb_irrefl, ?andb_false_r, ?Hc.
  all: cases; rewrite ?Hc; split; try done.
  all: destruct Hr as [[? ?]|?]; auto; try congruence.
  all: rewrite Hn in *; done.
Qed.

Lemma empty_pending_run evs : forall s,
  forallb undisturbing evs = true -> empty_pending s -> empty_pending (run s evs).
Proof.
  induction evs as [|ev evs IH]; intros s Hevs Hs; [done|].
  cbn in Hevs. apply andb_true_iff in Hevs as [Hev Hevs].
  rewrite run_cons. apply IH; [done|]. by apply empty_pending_step.
Qed.

(** C6.  When the archive has no entry and cancel() was not called: the
    promise is pending after the open; whatever events follow, no entry is
    handled and onEntry is not called; and, as long as neither cancel() nor
    an error of the reader occurs, the reader's close signal leaves the
    promise resolved. *)
Theorem empty_archive_resolves (e : Env) (evs0 : list Event)
    (Hopen : phase (run (extract e) evs0) = AwaitOpen)
    (Hnot : isCanceled (run (extract e) evs0) = false) :
  let s1 := step (run (extract e) evs0) (OpenSettled (inr 0)) in
  result s1 = Pending /\
  (forall evs,
     tasks (run s1 evs) = [] /\ tally is_OnEntry (effects (run s1 evs)) = 0) /\
  (forall evs,
     forallb undisturbing evs = true ->
     result (run s1 (evs ++ [ReaderClose])) = Resolved).
Proof.
  intros s1. set (s := run (extract e) evs0) in *.
  pose proof (consistent_run e evs0) as Hs. fold s in Hs.
  destruct (con_dormant _ Hs) as (Ht & _ & _ & _ & _ & _ & Hpend & Hq & Hlis);
    [by rewrite Hopen|].
  specialize (Hpend ltac:(by rewrite Hopen)).
  assert (H1 : empty_pending s1 /\ result s1 = Pending).
  { unfold s1, empty_pending, empty_listening. unfold_engine. rewrite Hopen. cbn.
    rewrite Hnot. cbn. rewrite tally_app, Hq. split_and!; try done. by left. }
  destruct H1 as [H1 Hr1].
  split_and!; [done| |].
  - intros evs.
    assert (H : empty_listening (run s1 evs)).
    { apply (run_invariant empty_listening); [|apply H1].
      intros ? ?. apply empty_listening_step. }
    destruct H as (_ & _ & ? & ?). done.
  - intros evs Hevs. rewrite run_snoc.
    assert (H : empty_pending (run s1 evs)) by (by apply empty_pending_run).
    destruct H as ((Hp & Hn & _ & _) & Hc & Hr).
    unfold_engine. rewrite Hp. destruct Hr as [[Hr Hcl]|Hr].
    + rewrite Hcl. cbn. rewrite Hc, Hn. cbn. by rewrite Hr.
    + cases; congruence.
Qed.

(** ** Directories, parents and streams *)

Lemma lookup_alter_named (f : Task -> Task) i (l : list Task) j t :
  (forall x, named x (f x)) ->
  l !! j = Some t -> exists t', alter f i l !! j = Some t' /\ named t t'.
Proof.
  intros Hf Hl. destruct (decide (i = j)) as [->|Hne].
  - exists (f t). by rewrite list_lookup_alter_eq, Hl.
  - exists t. by rewrite list_lookup_alter_ne.
Qed.

Lemma lookup_same_run_named l l' j t :
  Forall2 same_run l l' ->
  l !! j = Some t -> exists t', l' !! j = Some t' /\ named t t'.
Proof.
  intros H. revert j. induction H as [|x x' l l' Hx _ IH]; intros [|j] Hl; cbn in *;
    try done.
  - injection Hl as ->. exists x'. split; [done|].
    destruct Hx as [->| ->]; [done|]. by destruct t as [? ? ? ? []].
  - by apply IH.
Qed.

Lemma lookup_snoc_named (l : list Task) x j t :
  l !! j = Some t -> exists t', (l ++ [x]) !! j = Some t' /\ named t t'.
Proof.
  intros Hl. exists t. split; [|done]. apply lookup_app_l_Some, Hl.
Qed.

Ltac solve_named :=
  cbn; rewrite ?list_alter_alter_eq;
  first
    [ eexists; split; [eassumption|reflexivity]
    | apply lookup_alter_named; [by intros []|assumption] ].

(** Runs keep their place and their name. *)
Lemma names_persist s ev j t :
  tasks s !! j = Some t ->
  exists t', tasks (step s ev) !! j = Some t' /\ named t t'.
Proof.
  intros Hj. destruct ev.
  1: { cbn. eapply lookup_same_run_named; [|exact Hj].
       apply (und_tasks _ _ (undisturbed_cancel s)). }
  4: {
    unfold step. destruct (phase s) eqn:Hph; try solve_named.
    destruct (_ && _); [|solve_named].
    set (s0 := set_entriesRead _ _).
    destruct (onEntryListener s0) eqn:Hl; [|solve_named].
    destruct (entry_listener_cases en acts s0) as (s' & Hund & Hcase).
    destruct_undisturbed Hund.
    cbn in Utasks.
    destruct (lookup_same_run_named _ _ _ _ Utasks Hj) as (t' & Ht' & Hn).
    destruct Hcase as [-> | [-> | [Hnp ->]]]; unfold_engine; cases.
    all: exists t'; split; [|done]; by apply lookup_app_l_Some. }
  all: unfold_engine; cases; solve_named.
Qed.

Lemma silent_elem es x : forallb silent es = true -> x ∈ es -> silent x = true.
Proof.
  intros Hes Hx. apply list_elem_of_In in Hx.
  by apply (proj1 (forallb_forall silent es) Hes).
Qed.

(** The one place that opens a read stream. *)
Lemma openReadStream_origin s ev j :
  OpenReadStream j ∈ effects (step s ev) ->
  OpenReadStream j ∈ effects s \/
  (ev = FolderSettled j None /\
   exists t, tasks s !! j = Some t /\ handler t = EnsuringParent /\
             Dirname (filePath s t) ∈ ensured (step s ev)).
Proof.
  intros Hin. destruct ev.
  1: { left. cbn in Hin.
       destruct (und_effects _ _ (undisturbed_cancel s)) as (es & Hes & Hsil).
       rewrite Hes in Hin. apply elem_of_app in Hin as [?|Hin]; [done|].
       by pose proof (silent_elem _ _ Hsil Hin). }
  4: {
    left. revert Hin. unfold step. destruct (phase s) eqn:Hph; try done.
    destruct (_ && _); [|done].
    set (s0 := set_entriesRead _ _).
    destruct (onEntryListener s0) eqn:Hl; [|done].
    destruct (entry_listener_cases en acts s0) as (s' & Hund & Hcase).
    destruct_undisturbed Hund.
    destruct Ueff as (es & Hes & Hsil). cbn in Hes.
    assert (Hs' : OpenReadStream j ∈ effects s' -> OpenReadStream j ∈ effects s).
    { rewrite Hes. intros [?|Hin]%elem_of_app; [done|].
      by pose proof (silent_elem _ _ Hsil Hin). }
    destruct Hcase as [-> | [-> | [Hnp ->]]]; unfold_engine; cases.
    all: rewrite ?elem_of_app, ?elem_of_cons, ?elem_of_nil; intuition congruence. }
  all: revert Hin; unfold_engine; cases.
  all: rewrite ?elem_of_app, ?elem_of_cons, ?elem_of_nil; intros Hin.
  all: try (left; intuition congruence).
  destruct Hin as [?|[[= ->]|[]]]; [by left|]. right.
  split; [done|]. exists t. split_and!; try done.
  unfold filePath; cbn. apply elem_of_app. right. by apply list_elem_of_singleton.
Qed.

Lemma env_step s ev : env (step s ev) = env s.
Proof.
  destruct ev.
  1: apply (und_env _ _ (undisturbed_cancel s)).
  4: {
    unfold step. destruct (phase s) eqn:Hph; try done.
    destruct (_ && _); [|done].
    set (s0 := set_entriesRead _ _).
    destruct (onEntryListener s0) eqn:Hl; [|done].
    destruct (entry_listener_cases en acts s0) as (s' & Hund & Hcase).
    destruct_undisturbed Hund.
    destruct Hcase as [-> | [-> | [Hnp ->]]]; unfold_engine; by cases. }
  all: unfold_engine; by cases.
Qed.

Lemma ensured_step s ev x : x ∈ ensured s -> x ∈ ensured (step s ev).
Proof.
  intros Hx. destruct ev.
  1: { cbn. by rewrite (und_ensured _ _ (undisturbed_cancel s)). }
  4: {
    unfold step. destruct (phase s) eqn:Hph; try done.
    destruct (_ && _); [|done].
    set (s0 := set_entriesRead _ _).
    destruct (onEntryListener s0) eqn:Hl; [|done].
    destruct (entry_listener_cases en acts s0) as (s' & Hund & Hcase).
    destruct_undisturbed Hund.
    cbn in Uens.
    destruct Hcase as [-> | [-> | [Hnp ->]]]; unfold_engine; cases; congruence. }
  all: unfold_engine; cases; rewrite ?elem_of_app; auto.
Qed.

Lemma streams_have_parents_step s ev :
  folders_first s -> streams_have_parents s -> streams_have_parents (step s ev).
Proof.
  intros Hff Hs j Hin.
  destruct (openReadStream_origin s ev j Hin) as [Hold|(-> & t & Ht & Hh & Hens)].
  - destruct (Hs j Hold) as (t & Ht & Hdir & Hens).
    destruct (names_persist s ev j t Ht) as (t' & Ht' & Hn).
    exists t'. split; [done|]. unfold is_dir, filePath in *.
    rewrite Hn, env_step. split; [done|]. by apply ensured_step.
  - destruct (names_persist s (FolderSettled j None) j t Ht) as (t' & Ht' & Hn).
    exists t'. split; [done|]. unfold is_dir, filePath in *.
    rewrite Hn, env_step. split; [|done].
    pose proof (Forall_lookup_1 _ _ _ _ Hff Ht) as Hfs.
    unfold task_fs, is_dir in Hfs. rewrite Hh in Hfs.
    destruct (ends_with_slash (decodeEntryFileName t)); [by destruct Hfs|done].
Qed.

Lemma streams_have_parents_run e evs :
  streams_have_parents (run (extract e) evs).
Proof.
  assert (H : folders_first (run (extract e) evs) /\
              streams_have_parents (run (extract e) evs)); [|apply H].
  apply (run_invariant (fun s => folders_first s /\ streams_have_parents s)).
  - intros s ev [Hff Hs]. split; [by apply folders_first_step|].
    by apply streams_have_parents_step.
  - split; [apply folders_first_extract|].
    intros j. unfold extract, after_rimraf. unfold_engine.
    repeat (cbn; case_match); cbn;
      rewrite ?elem_of_cons, ?elem_of_nil; intuition congruence.
Qed.


(** ** Symbolic links *)

Lemma string_app_nil_r (a : string) : (a ++ "")%string = a.
Proof. induction a as [|c a IH]; cbn; [done|]. by rewrite IH. Qed.

Lemma string_app_assoc (a b c : string) :
  ((a ++ b) ++ c)%string = (a ++ (b ++ c))%string.
Proof. induction a as [|x a IH]; cbn; [done|]. by rewrite IH. Qed.

Lemma link_run i chunks : forall s t,
  tasks s !! i = Some t -> readStream t = Reading -> asLink t = true ->
  effects (run s (map (ReadData i) chunks ++ [ReadEnd i])) =
  effects s ++ [ReadEntry; Symlink (linkContent t ++ text_of chunks) (filePath s t)].
Proof.
  induction chunks as [|c chunks IH]; intros s t Ht Hr Hl.
  - cbn. unfold_engine. rewrite Ht, Hr, Hl. cbn.
    by rewrite string_app_nil_r, <- app_assoc.
  - cbn [map app]. rewrite run_cons.
    assert (Hstep : step s (ReadData i c) =
                    set_task i (fun t => task_linkContent (linkContent t ++ c)%string t) s).
    { unfold_engine. by rewrite Ht, Hr, Hl. }
    rewrite Hstep.
    rewrite (IH _ (task_linkContent (linkContent t ++ c)%string t)); try done.
    + cbn. by rewrite string_app_assoc.
    + cbn. by rewrite list_lookup_alter_eq, Ht.
Qed.

Lemma file_run i chunks s t :
  tasks s !! i = Some t -> readStream t = Reading -> asLink t = false ->
  effects (run s (map (ReadData i) chunks ++ [ReadEnd i])) = effects s ++ [ReadEntry].
Proof.
  intros Ht Hr Hl. induction chunks as [|c chunks IH].
  - cbn. unfold_engine. by rewrite Ht, Hr, Hl.
  - cbn [map app]. rewrite run_cons.
    assert (Hstep : step s (ReadData i c) = s).
    { unfold_engine. by rewrite Ht, Hr, Hl. }
    by rewrite Hstep.
Qed.

Transparent modeFromEntry isSymlink symlinkToFile.


(** ** The claims that the code does not meet, as the specification states them *)

(** cancel() during the open, and the open fails: the open's error is
    surfaced.  cancel() while the folder of the last entry is being made, and
    the folder is made: the promise is resolved. *)
Lemma cancel_can_end_otherwise :
  ~ cancel_always_cancels Sample.posix
      [EnsureTargetSettled None] [OpenSettled (inl Sample.eio)] /\
  ~ cancel_always_cancels Sample.posix
      (Sample.opened_with 1 ++ [EntryRead Sample.docs []]) [FolderSettled 0 None].
Proof.
  split; intros H; specialize (H eq_refl); vm_compute in H;
    destruct H as [H|H]; discriminate H.
Qed.

Lemma setuid_bit_dropped : ~ high_bits_used_directly Sample.su.
Proof.
  intros H. unfold high_bits_used_directly in H. vm_compute in H.
  assert (Hne : 35309%Z <> 0%Z) by discriminate.
  specialize (H Hne). discriminate H.
Qed.

Lemma callback_left_after_write :
  ~ no_stale_callback (run (extract Sample.posix) Sample.one_file).
Proof.
  intros H.
  apply (H 0 (mkTask "docs/readme.txt" Sample.readme Counted Ended Closed false "" false));
    reflexivity.
Qed.

(** ** The theorems at work *)

Lemma cancellation_masks_errors_witness :
  phase (run (extract Sample.posix) (Sample.opened_with 1)) = Listening /\
  result (run (extract Sample.posix) (Sample.opened_with 1)) = Pending /\
  masked
    (result
       (run (cancel (run (extract Sample.posix) (Sample.opened_with 1)))
          [ReaderError Sample.eio; ReaderClose])).
Proof.
  split_and!; [reflexivity|reflexivity|].
  apply (cancellation_masks_errors
           (run (extract Sample.posix) (Sample.opened_with 1))
           [ReaderError Sample.eio; ReaderClose]); reflexivity.
Defined.

Lemma modeFromEntry_high_bits_witness :
  (0 <= externalFileAttributes Sample.su < 2 ^ 32)%Z /\
  modeFromEntry Sample.su = 33261%Z.
Proof.
  assert (H : (0 <= externalFileAttributes Sample.su < 2 ^ 32)%Z) by (cbn; lia).
  split; [exact H|].
  rewrite (modeFromEntry_high_bits Sample.su H). reflexivity.
Defined.

Lemma one_entry_at_a_time_witness :
  readEntry_calls
    (step (run (extract Sample.posix)
             (Sample.opened_with 2 ++
              [EntryRead Sample.readme []; FolderSettled 0 None; StreamSettled 0 None]))
       (ReadEnd 0)) <>
  readEntry_calls
    (run (extract Sample.posix)
       (Sample.opened_with 2 ++
        [EntryRead Sample.readme []; FolderSettled 0 None; StreamSettled 0 None])) /\
  tally stream_open
    (tasks
       (step (run (extract Sample.posix)
                (Sample.opened_with 2 ++
                 [EntryRead Sample.readme []; FolderSettled 0 None;
                  StreamSettled 0 None]))
          (ReadEnd 0))) = 0.
Proof.
  assert (H : readEntry_calls
                (step (run (extract Sample.posix)
                         (Sample.opened_with 2 ++
                          [EntryRead Sample.readme []; FolderSettled 0 None;
                           StreamSettled 0 None]))
                   (ReadEnd 0)) <>
              readEntry_calls
                (run (extract Sample.posix)
                   (Sample.opened_with 2 ++
                    [EntryRead Sample.readme []; FolderSettled 0 None;
                     StreamSettled 0 None]))).
  { vm_compute. discriminate. }
  split; [exact H|].
  apply (proj2 (one_entry_at_a_time Sample.posix
                  (Sample.opened_with 2 ++
                   [EntryRead Sample.readme []; FolderSettled 0 None;
                    StreamSettled 0 None])) (ReadEnd 0) H).
Defined.

Lemma cancel_during_open_witness :
  phase (run (extract Sample.posix) [EnsureTargetSettled None; UserCancel]) = AwaitOpen /\
  isCanceled (run (extract Sample.posix) [EnsureTargetSettled None; UserCancel]) = true /\
  result
    (run (step (run (extract Sample.posix) [EnsureTargetSettled None; UserCancel])
            (OpenSettled (inr 2)))
       ([EntryRead Sample.docs []] ++ [ReaderClose])) = Rejected canceled.
Proof.
  split_and!; [reflexivity|reflexivity|].
  apply (cancel_during_open Sample.posix [EnsureTargetSettled None; UserCancel] 2
           eq_refl eq_refl).
Defined.

Lemma empty_archive_resolves_witness :
  phase (run (extract Sample.posix) [EnsureTargetSettled None]) = AwaitOpen /\
  isCanceled (run (extract Sample.posix) [EnsureTargetSettled None]) = false /\
  result
    (run (step (run (extract Sample.posix) [EnsureTargetSettled None])
            (OpenSettled (inr 0)))
       ([] ++ [ReaderClose])) = Resolved.
Proof.
  split_and!; [reflexivity|reflexivity|].
  apply (empty_archive_resolves Sample.posix [EnsureTargetSettled None]
           eq_refl eq_refl); reflexivity.
Defined.




Lemma onEntry_throw_escapes_witness :
  deliverable (run (extract Sample.posix) (Sample.opened_with 1)) /\
  result
    (step (run (extract Sample.posix) (Sample.opened_with 1))
       (EntryRead Sample.readme [Throw Sample.eio])) = Pending.
Proof.
  assert (Hd : deliverable (run (extract Sample.posix) (Sample.opened_with 1))).
  { unfold deliverable. cbn. split_and!; try reflexivity; lia. }
  split; [exact Hd|].
  apply (onEntry_throw_escapes _ Sample.readme [Throw Sample.eio] Hd eq_refl eq_refl).
Defined.

(** ** The mode and the names, further *)

Section ModeBits.
Local Open Scope Z_scope.

(** The attribute that [modeFromEntry] masks, for an unsigned 32-bit word:
    the high half, or 33188 when the high half is zero. *)
Lemma modeFromEntry_word entry :
  0 <= externalFileAttributes entry < 2 ^ 32 ->
  let high := externalFileAttributes entry / 2 ^ 16 in
  0 <= high < 2 ^ 16 /\
  modeFromEntry entry = Z.land (if high =? 0 then 33188 else high) 61951.
Proof.
  intros Hx high.
  assert (Hh : 0 <= high < 2 ^ 16).
  { unfold high. split; [apply Z.div_pos; lia|]. apply Z.div_lt_upper_bound; lia. }
  split; [exact Hh|].
  rewrite modeFromEntry_unfold. cbv zeta. rewrite (sar16_uint32 _ Hx). fold high.
  unfold JS.or_else.
  destruct (Z.ltb_spec (externalFileAttributes entry) (2 ^ 31)) as [Hlt | Hge].
  - destruct (Z.eqb_spec high 0) as [-> | Hne]; [reflexivity|].
    by rewrite ToInt32_small by lia.
  - assert (Hhi : 2 ^ 15 <= high).
    { unfold high. apply Z.div_le_lower_bound; lia. }
    destruct (Z.eqb_spec (high - 2 ^ 16) 0) as [Hz | _]; [lia|].
    destruct (Z.eqb_spec high 0) as [Hz | _]; [lia|].
    rewrite ToInt32_small by lia.
    rewrite (land_low16 (high - 2 ^ 16)), (land_low16 high) by lia.
    f_equal.
    replace (high - 2 ^ 16) with (high + (-1) * 2 ^ 16) by lia.
    apply Z.mod_add. lia.
Qed.

(** X1. Whatever number the attribute field holds, the mode is made of file
    type and permission bits only: it is a 16-bit value inside the mask
    0o170777, and the setuid, setgid and sticky bits (0o7000) are never set. *)
Theorem modeFromEntry_bits (entry : Entry) :
  0 <= modeFromEntry entry < 2 ^ 16 /\
  Z.land (modeFromEntry entry) 61951 = modeFromEntry entry /\
  Z.land (modeFromEntry entry) 3584 = 0.
Proof.
  split; [apply modeFromEntry_range|].
  rewrite modeFromEntry_unfold. cbv zeta.
  set (a := JS.ToInt32 _).
  split.
  - by rewrite <- Z.land_assoc.
  - rewrite <- Z.land_assoc. apply Z.land_0_r.
Qed.

(** X2. An entry is taken for a symbolic link exactly when the file type in
    the high half of its attribute word is 0o120000, whatever its other bits;
    an entry without Unix attributes never is. *)
Theorem isSymlink_from_attributes (entry : Entry)
    (Hx : 0 <= externalFileAttributes entry < 2 ^ 32) :
  isSymlink (modeFromEntry entry) = true <->
  Z.land (externalFileAttributes entry / 2 ^ 16) 61440 = 40960.
Proof.
  rewrite isSymlink_mode.
  destruct (modeFromEntry_word entry Hx) as [Hh ->]. cbv zeta in *.
  set (high := externalFileAttributes entry / 2 ^ 16) in *.
  rewrite <- Z.land_assoc. change (Z.land 61951 61440) with 61440.
  destruct (Z.eqb_spec high 0) as [-> | Hne]; [|done].
  split; intros H; discriminate H.
Qed.

(** X3. The mode is 0, a file nobody may read, exactly when the high half is
    not zero and holds neither a file type nor a permission bit. *)
Theorem modeFromEntry_zero (entry : Entry)
    (Hx : 0 <= externalFileAttributes entry < 2 ^ 32) :
  let high := externalFileAttributes entry / 2 ^ 16 in
  modeFromEntry entry = 0 <-> high <> 0 /\ Z.land high 61951 = 0.
Proof.
  intros high. destruct (modeFromEntry_word entry Hx) as [Hh ->]. fold high.
  destruct (Z.eqb_spec high 0) as [-> | Hne].
  - split; [intros H; discriminate H|]. by intros [? _].
  - split; [by intros ->|]. by intros [_ ->].
Qed.

End ModeBits.

Section Names.
Local Open Scope string_scope.

Lemma ends_with_slash_last s :
  ends_with_slash s = true <-> last_char s = Some "/"%char.
Proof.
  induction s as [|c s IH]; cbn; [done|].
  destruct s as [|c' s]; [|exact IH].
  destruct (Ascii.eqb_spec c "/"); split; congruence.
Qed.

Lemma last_char_app p c : last_char (p ++ String c "") = Some c.
Proof.
  induction p as [|x p IH]; cbn; [done|].
  rewrite IH. by destruct p.
Qed.

Lemma last_char_split s c :
  last_char s = Some c -> exists p, s = p ++ String c "".
Proof.
  induction s as [|x s IH]; cbn; [done|].
  destruct s as [|y s].
  - intros [= ->]. by exists "".
  - intros H. destruct (IH H) as (p & Hp). exists (String x p). cbn. by rewrite <- Hp.
Qed.

Lemma last_char_replace s :
  last_char (replace_backslash s) =
  option_map (fun ch => if Ascii.eqb ch "092" then "/"%char else ch) (last_char s).
Proof.
  induction s as [|x s IH]; cbn; [done|].
  destruct s as [|y s]; [done|]. exact IH.
Qed.

Lemma no_backslash_left s : occurs "092" (replace_backslash s) = false.
Proof.
  induction s as [|c s IH]; cbn; [done|].
  destruct (Ascii.eqb_spec c "092") as [->|Hc]; cbn; [done|].
  rewrite IH. by destruct (Ascii.eqb_spec c "092").
Qed.


(** X5. The test of handleEntry holds exactly for the names that end with a
    slash; so the entries handled as directories are those whose stored name
    ends with a slash or with a backslash, and the empty name is handled as a
    file. *)
Theorem directory_names (rawName : string) :
  (ends_with_slash rawName = true <-> exists p, rawName = p ++ "/") /\
  (ends_with_slash (replace_backslash rawName) = true <->
   exists p, rawName = p ++ "/" \/ rawName = p ++ String "092" "") /\
  ends_with_slash (replace_backslash "") = false.
Proof.
  split_and!; [| |done].
  - rewrite ends_with_slash_last. split.
    + apply last_char_split.
    + intros (p & ->). apply last_char_app.
  - rewrite ends_with_slash_last, last_char_replace. split.
    + destruct (last_char rawName) as [c|] eqn:Hl; [|done].
      destruct (last_char_split _ _ Hl) as (p & ->). cbn.
      destruct (Ascii.eqb_spec c "092") as [->|Hc].
      * intros _. exists p. by right.
      * intros [= ->]. exists p. by left.
    + intros (p & [-> | ->]); by rewrite last_char_app.
Qed.

End Names.

Opaque modeFromEntry isSymlink symlinkToFile.

(** ** The handle is closed once, and by cancel() whenever it is called *)

Lemma entry_listener_eq en acts s :
  let name := replace_backslash (fileName en) in
  let s' := called_back en acts s in
  entry_listener en acts s = add_task (new_task name en Thrown) s' \/
  entry_listener en acts s =
    count_entry (add_task (new_task name en Skipped)
                   (readEntry (set_entryEvent (reset (entryEvent s')) s'))) \/
  (isPrevented (entryEvent s') = false /\
   entry_listener en acts s = handleEntry en name s').
Proof.
  intros name s'. unfold s', called_back, entry_listener. fold name.
  destruct (onEntryCallback acts _) as [s1 threw] eqn:Hcb. cbn.
  destruct threw; [by left|].
  destruct (isPrevented (entryEvent s1)) eqn:Hprev; [right; by left|].
  right; right. done.
Qed.

Lemma called_back_undisturbed en acts s : undisturbed s (called_back en acts s).
Proof.
  unfold called_back.
  eapply undisturbed_trans; [apply undisturbed_entryEvent|].
  eapply onEntryCallback_undisturbed. apply surjective_pairing.
Qed.

(** A property kept by what a callback can do is kept by the callback. *)
Lemma called_back_invariant (P : State -> Prop) en acts s :
  (forall s, P s -> P (cancel s)) ->
  (forall s ev, P s -> P (set_entryEvent ev s)) ->
  (forall s n c, P s -> P (call [OnEntry n c] s)) ->
  P s -> P (called_back en acts s).
Proof.
  intros Hcancel Hev Hcall Hs. unfold called_back, onEntryCallback.
  set (s0 := set_entryEvent _ s).
  assert (H0 : P s0) by apply Hev, Hs.
  assert (Hcb : forall s1, P s1 -> P (fst (callback acts s1))).
  { clear s s0 Hs H0 Hcall.
    induction acts as [|[] acts IH]; intros s1 H1; cbn; auto. }
  repeat case_match; try done. apply Hcb, Hcall, H0.
Qed.

Lemma pending_not_resolved s i t :
  consistent s -> tasks s !! i = Some t -> accounted t = false ->
  result s <> Resolved.
Proof.
  intros [_ _ _ Hc Hr Hres _] Ht Ha Hres'.
  pose proof (tally_lookup_length accounted _ _ _ Ht) as Hl.
  rewrite Ha in Hl. specialize (Hres Hres'). lia.
Qed.

Lemma handle_inv_extract e : handle_inv (extract e).
Proof.
  unfold extract, after_rimraf. unfold_engine.
  repeat (cbn; case_match); constructor; cbn; try done.
Qed.

Lemma handle_inv_cancel s : handle_inv s -> handle_inv (cancel s).
Proof.
  intros [Hd Ho Hc Hcl].
  unfold cancel, invoke_cancelCallback. unfold_engine.
  repeat (cbn; case_match; subst); constructor; cbn; intros;
    rewrite ?tally_app in *; cbn in *; try done; auto.
  all: try (destruct (Hd ltac:(done)) as (? & ? & ? & ?); split_and!; congruence).
  all: try (rewrite Ho by done; repeat case_match; try done; lia).
  all: try (destruct (Hd ltac:(done)) as (? & ? & ? & ?); congruence).
  all: congruence.
Qed.

Lemma handle_inv_called_back en acts s :
  handle_inv s -> handle_inv (called_back en acts s).
Proof.
  apply called_back_invariant.
  - apply handle_inv_cancel.
  - by intros ? ? [].
  - intros s0 n c [Hd Ho Hc Hcl]. constructor; cbn; rewrite ?tally_app; cbn;
      rewrite ?Nat.add_0_r; done.
Qed.

Lemma task_listening s i t :
  consistent s -> tasks s !! i = Some t -> phase s = Listening.
Proof.
  intros Hs Ht. destruct (phase s) eqn:Hp; try done.
  all: destruct (con_dormant _ Hs) as (Hnil & _); [by rewrite Hp|].
  all: by rewrite Hnil in Ht.
Qed.

Ltac handle_facts :=
  repeat match goal with
  | Hs : consistent ?s, Ht : tasks ?s !! ?i = Some ?t |- _ =>
      lazymatch goal with
      | _ : phase s = Listening |- _ => fail
      | _ => pose proof (task_listening s i t Hs Ht)
      end
  end;
  repeat match goal with
  | Hs : consistent ?s, Ht : tasks ?s !! ?i = Some ?t, Hh : handler ?t = _ |- _ =>
      lazymatch goal with
      | _ : result s <> Resolved |- _ => fail
      | _ =>
          assert (result s <> Resolved)
            by (apply (pending_not_resolved s i t Hs Ht); unfold accounted; by rewrite Hh)
      end
  end.

Ltac solve_handle :=
  intros; rewrite ?tally_app in *; cbn in *; rewrite ?Nat.add_0_r in *;
  repeat match goal with
  | H : ?P -> _, H' : ?P |- _ => specialize (H H')
  | H : ?x = ?x -> _ |- _ => specialize (H eq_refl)
  end;
  try done; try congruence; try lia;
  try (repeat case_match; try done; try congruence; lia);
  try (right; eexists; first [reflexivity | eassumption]);
  try (match goal with
       | H : _ \/ (exists _, _) |- _ =>
           destruct H as [?|[? ?]];
           first [by left | congruence | right; eexists; eassumption]
       end);
  eauto.

Lemma handle_inv_task_event s ev :
  match ev with
  | FolderSettled _ _ | StreamSettled _ _ | ReadData _ _ | ReadEnd _
  | ReadError _ _ | WriteClose _ | WriteError _ _ | SymlinkSettled _ _ => True
  | _ => False
  end ->
  consistent s -> handle_inv s -> handle_inv (step s ev).
Proof.
  intros Hev Hs Hh.
  destruct ev; try done.
  all: unfold_engine; cases; try done.
  all: handle_facts.
  all: destruct Hh as [Hd Ho Hc Hcl]; constructor; cbn.
  all: solve_handle.
Qed.

Lemma handle_inv_reader_event s ev :
  match ev with
  | RimrafSettled _ | EnsureTargetSettled _ | OpenSettled _
  | ReaderError _ | ReaderClose => True
  | _ => False
  end ->
  consistent s -> handle_inv s -> handle_inv (step s ev).
Proof.
  intros Hev Hs Hh.
  destruct ev; try done.
  all: unfold_engine; cases; try done.
  all: destruct Hs as [Hd Hone Hp Hc Hr Hres Hwf]; use_dormant.
  all: destruct Hh as [Gd Go Gc Gcl]; constructor; cbn.
  all: try (destruct (Gd ltac:(congruence)) as (? & ? & ? & ?)).
  all: try (assert (result s = Pending) by (apply Hpend; congruence)).
  all: solve_handle.
Qed.

Lemma handle_inv_entry s en acts :
  consistent s -> handle_inv s -> handle_inv (step s (EntryRead en acts)).
Proof.
  intros Hs Hh. unfold step.
  destruct (phase s) eqn:Hph; try done.
  destruct (_ && _); [|done].
  set (s0 := set_entriesRead _ _).
  assert (H0 : handle_inv s0) by (by destruct Hh).
  destruct (onEntryListener s0); [|done].
  pose proof (handle_inv_called_back en acts s0 H0) as Hh'.
  pose proof (called_back_undisturbed en acts s0) as Hund.
  destruct_undisturbed Hund. cbn in *.
  destruct (entry_listener_eq en acts s0) as [-> | [-> | [Hnp ->]]];
    set (s' := called_back en acts s0) in *; clearbody s'; clear H0 Hh.
  all: unfold_engine; cases.
  all: destruct Hh' as [Gd Go Gc Gcl]; constructor; cbn.
  all: solve_handle.
Qed.

Lemma handle_inv_step s ev :
  consistent s -> handle_inv s -> handle_inv (step s ev).
Proof.
  intros Hs Hh. destruct ev.
  - by apply handle_inv_cancel.
  - by apply handle_inv_reader_event.
  - by apply handle_inv_reader_event.
  - by apply handle_inv_reader_event.
  - by apply handle_inv_entry.
  - by apply handle_inv_reader_event.
  - by apply handle_inv_reader_event.
  - by apply handle_inv_task_event.
  - by apply handle_inv_task_event.
  - by apply handle_inv_task_event.
  - by apply handle_inv_task_event.
  - by apply handle_inv_task_event.
  - by apply handle_inv_task_event.
  - by apply handle_inv_task_event.
  - by apply handle_inv_task_event.
Qed.

Lemma handle_inv_run e evs : handle_inv (run (extract e) evs).
Proof.
  assert (H : consistent (run (extract e) evs) /\ handle_inv (run (extract e) evs));
    [|apply H].
  apply (run_invariant (fun s => consistent s /\ handle_inv s)).
  - intros s ev [Hs Hh]. split; [by apply consistent_step|by apply handle_inv_step].
  - split; [apply consistent_extract|apply handle_inv_extract].
Qed.

Lemma tally_elem {A} (p : A -> bool) (l : list A) :
  0 < tally p l <-> exists x, x ∈ l /\ p x = true.
Proof.
  induction l as [|a l IH]; cbn.
  - split; [lia|]. intros (x & Hx & _). by apply elem_of_nil in Hx.
  - split.
    + destruct (p a) eqn:Ha.
      * intros _. exists a. split; [apply elem_of_cons; by left|done].
      * intros H. apply IH in H as (x & Hx & Hp). exists x.
        split; [apply elem_of_cons; by right|done].
    + intros (x & [->|Hx]%elem_of_cons & Hp).
      * rewrite Hp. lia.
      * assert (0 < tally p l) by (apply IH; eauto). lia.
Qed.

Lemma listening_or_not s : phase s = Listening \/ phase s <> Listening.
Proof. destruct (phase s); auto. Qed.

Lemma closeZip_elem (l : list Effect) : CloseZip ∈ l <-> 0 < tally is_CloseZip l.
Proof.
  rewrite tally_elem. split.
  - intros H. by exists CloseZip.
  - intros (x & Hx & Hp). by destruct x.
Qed.


(** X7. Once cancel() has been called, [this.zipFile] is null in every state
    that follows: an archive that was open has been closed, and an archive
    whose opening ends after the call is closed in the step that opens it. *)
Theorem cancel_releases_archive (e : Env) (evs : list Event)
    (Hc : isCanceled (run (extract e) evs) = true) :
  let s := run (extract e) evs in
  zipFile s = false /\ (phase s = Listening -> CloseZip ∈ effects s).
Proof.
  intros s. pose proof (handle_inv_run e evs) as [_ Go Gc _]. fold s in Go, Gc, Hc.
  specialize (Gc Hc). split; [done|].
  intros Hp. apply closeZip_elem. rewrite (Go Hp), Gc. lia.
Qed.

(** X8. The engine closes the archive only for cancel() or for a failure: when
    close has been called, cancel() was called or the promise is rejected. So
    when an extraction has succeeded and cancel() was not called, close was
    not called and [this.zipFile] still holds the handle. *)
Theorem archive_kept_on_success (e : Env) (evs : list Event) :
  let s := run (extract e) evs in
  (CloseZip ∈ effects s ->
   isCanceled s = true \/ exists err, result s = Rejected err) /\
  (result s = Resolved -> isCanceled s = false ->
   zipFile s = true /\ (CloseZip ∉ effects s)).
Proof.
  intros s. pose proof (handle_inv_run e evs) as [Gd Go _ Gcl].
  pose proof (consistent_run e evs) as Hs. fold s in Gd, Go, Gcl, Hs.
  assert (Hclosed : CloseZip ∈ effects s ->
                    isCanceled s = true \/ exists err, result s = Rejected err).
  { rewrite closeZip_elem. intros Hin.
    destruct (listening_or_not s) as [Hp|Hp].
    - apply Gcl; [done|]. rewrite (Go Hp) in Hin. destruct (zipFile s); [lia|done].
    - destruct (Gd Hp) as (_ & _ & Hz & _). lia. }
  split; [exact Hclosed|].
  intros Hres Hnc.
  assert (Hp : phase s = Listening).
  { destruct (listening_or_not s) as [Hp|Hp]; [done|].
    destruct (con_dormant _ Hs Hp) as (_ & _ & _ & _ & _ & Hnr & _). done. }
  assert (Hno : CloseZip ∉ effects s).
  { intros Hin. destruct (Hclosed Hin) as [?|[err ?]]; congruence. }
  split; [|done].
  destruct (zipFile s) eqn:Hz; [done|]. exfalso. apply Hno.
  apply closeZip_elem. rewrite (Go Hp). lia.
Qed.

(** X9. cancel() after an extraction has succeeded leaves the promise
    resolved, but it is not without effect: it sets the flag, calls the
    callback that the last write left registered, if any, and closes the
    archive, which the engine had kept open. *)
Theorem cancel_after_success (e : Env) (evs : list Event)
    (Hres : result (run (extract e) evs) = Resolved)
    (Hnc : isCanceled (run (extract e) evs) = false) :
  let s := run (extract e) evs in
  let s' := step s UserCancel in
  result s' = Resolved /\ isCanceled s' = true /\ zipFile s' = false /\
  cancelCallback s' = None /\
  exists stale,
    effects s' = effects s ++ stale ++ [CloseZip] /\
    (stale = [] \/
     exists i, cancelCallback s = Some i /\ stale = [Unpipe i; Destroy i canceled]).
Proof.
  intros s s'. pose proof (handle_inv_run e evs) as [Gd Go _ Gcl].
  pose proof (consistent_run e evs) as Hs. fold s in Gd, Go, Gcl, Hs, Hres, Hnc.
  assert (Hp : phase s = Listening).
  { destruct (listening_or_not s) as [Hp|Hp]; [done|].
    destruct (con_dormant _ Hs Hp) as (_ & _ & _ & _ & _ & Hnr & _). done. }
  assert (Hz : zipFile s = true).
  { destruct (zipFile s) eqn:Hz; [done|].
    destruct (Gcl Hp eq_refl) as [?|[err ?]]; congruence. }
  unfold s'. cbn. unfold cancel, invoke_cancelCallback. unfold_engine.
  cbn. destruct (cancelCallback s) as [i|] eqn:Hcb; cbn.
  - destruct (tasks s !! i) as [t|] eqn:Ht; cbn.
    + destruct (fileStream t) eqn:Hf; cbn; rewrite Hz; cbn; split_and!; try done.
      all: try (exists []; split; [done|by left]).
      all: exists [Unpipe i; Destroy i canceled]; rewrite <- app_assoc;
        split; [done|right; by exists i].
    + rewrite Hz. cbn. split_and!; try done. exists []. split; [done|by left].
  - rewrite Hz. cbn. split_and!; try done. exists []. split; [done|by left].
Qed.

(** ** A failing entry *)

(** X10. When an entry fails and cancel() was not called, whether the failure
    is of ensureFolder, of openReadStream, of the read stream, of the file
    stream or of symlink: the promise, if it was pending, is rejected with
    that very error, and it is never left resolved; the archive is closed and
    [this.zipFile] is null; the entry is not counted and no further entry is
    asked for. *)
Theorem entry_failure_closes_archive (e : Env) (evs : list Event)
    (i : nat) (ev : Event) (err : Error)
    (Hf : entry_fails (run (extract e) evs) i ev err)
    (Hnc : isCanceled (run (extract e) evs) = false) :
  let s := run (extract e) evs in
  let s' := step s ev in
  (exists err', result s' = Rejected err' /\ (result s = Pending -> err' = err)) /\
  zipFile s' = false /\ CloseZip ∈ effects s' /\
  extractedEntriesCount s' = extractedEntriesCount s /\
  readEntry_calls s' = readEntry_calls s /\
  exists t', tasks s' !! i = Some t' /\ handler t' = Caught.
Proof.
  intros s. pose proof (handle_inv_run e evs) as [_ Go _ _].
  pose proof (consistent_run e evs) as Hs. fold s in Go, Hs, Hf, Hnc.
  clearbody s. destruct Hf as (t & Ht & Hev).
  pose proof (task_listening s i t Hs Ht) as Hp. specialize (Go Hp).
  assert (Hnr : result s <> Resolved).
  { apply (pending_not_resolved s i t Hs Ht). unfold accounted.
    destruct Hev as [(_ & [-> | ->]) | [(_ & ->) | (-> & _)]]; done. }
  assert (Hin : zipFile s = false -> CloseZip ∈ effects s).
  { intros Hz. apply closeZip_elem. rewrite Go, Hz. lia. }
  assert (Hcatch :
    forall f, (forall x, handler (f x) = handler x) ->
    let s1 := catch_entry err (set_task i (task_handler Caught) (set_task i f s)) in
    (exists err', result s1 = Rejected err' /\ (result s = Pending -> err' = err)) /\
    zipFile s1 = false /\ CloseZip ∈ effects s1 /\
    extractedEntriesCount s1 = extractedEntriesCount s /\
    readEntry_calls s1 = readEntry_calls s /\
    exists t', tasks s1 !! i = Some t' /\ handler t' = Caught).
  { intros f Hfh. unfold readEntry_calls. unfold_engine. cbn. rewrite Hnc. cbn.
    destruct (result s) eqn:Hr; [| done |]; cbn.
    all: destruct (zipFile s) eqn:Hz; cbn; rewrite ?tally_app; cbn.
    all: rewrite list_alter_alter_eq, list_lookup_alter_eq, Ht; cbn.
    all: split_and!; try done; try lia.
    all: try (apply elem_of_app; right; by apply list_elem_of_singleton).
    all: try (by apply Hin).
    all: lazymatch goal with
         | |- exists _, _ = Rejected _ /\ _ =>
             eexists; split; [first [reflexivity | eassumption] | intros; congruence]
         | |- _ => by eexists
         end. }
  assert (Hid : set_task i (fun x => x) s = s).
  { unfold set_task, set_tasks. rewrite list_alter_id by done. by destruct s. }
  destruct Hev as [(-> & Hh) | [(-> & Hh) | (Hh & [(-> & Hx) | [(-> & Hx) | (-> & Hx)]])]];
    intros s'; unfold s', step, with_task; rewrite Ht.
  - specialize (Hcatch (fun x => x) ltac:(done)). rewrite Hid in Hcatch.
    unfold folder_settled, finish. by destruct Hh as [-> | ->].
  - specialize (Hcatch (fun x => x) ltac:(done)). rewrite Hid in Hcatch.
    unfold stream_settled, finish. by rewrite Hh.
  - unfold read_error, settle_write, finish. rewrite Hx, Hh.
    by apply (Hcatch (task_readStream ReadFailed)).
  - unfold write_error, settle_write, finish. rewrite Hh.
    destruct Hx as [-> | ->]; by apply (Hcatch (task_fileStream WriteFailed)).
  - unfold symlink_settled, settle_write, finish. rewrite Hx, Hh.
    by apply (Hcatch (task_linking false)).
Qed.

(** ** The order of the first calls *)

Lemma env_run evs : forall s, env (run s evs) = env s.
Proof.
  induction evs as [|ev evs IH]; intros s; [done|].
  rewrite run_cons, IH. apply env_step.
Qed.

Lemma env_extract e : env (extract e) = e.
Proof.
  unfold extract, after_rimraf. unfold_engine. by repeat (cbn; case_match).
Qed.

Lemma silent_not_once es : forallb silent es = true -> tally once_only es = 0.
Proof. apply silent_tally. by intros []. Qed.

Lemma prologue_inv_undisturbed s s' :
  undisturbed s s' -> phase s = Listening -> prologue_inv s -> prologue_inv s'.
Proof.
  intros Hund Hp. destruct_undisturbed Hund.
  unfold prologue_inv, prologue_order. rewrite Uphase, Hp, Uenv.
  intros (rest & Hrest & Hr). destruct Ueff as (es & -> & Hes).
  exists (rest ++ es). rewrite Hrest, <- app_assoc. split; [done|].
  rewrite tally_app, Hr, (silent_not_once _ Hes). done.
Qed.

Lemma order_more (pre rest es : list Effect) :
  tally once_only rest = 0 -> tally once_only es = 0 ->
  exists rest',
    (pre ++ ReadEntry :: rest) ++ es = pre ++ ReadEntry :: rest' /\
    tally once_only rest' = 0.
Proof.
  intros Hr He. exists (rest ++ es). rewrite <- app_assoc. split; [done|].
  rewrite tally_app. lia.
Qed.

(** The archive is open: what is called comes after the first calls. *)
Ltac solve_later :=
  try done;
  match goal with
  | H : exists rest, effects ?s = _ /\ _ |- _ =>
      let rest := fresh "rest" in
      let Heff := fresh "Heff" in
      let Hrest := fresh "Hrest" in
      destruct H as (rest & Heff & Hrest);
      rewrite Heff; rewrite <- ?(app_assoc (_ ++ ReadEntry :: rest));
      first
        [ by exists rest
        | apply order_more; [exact Hrest|reflexivity] ]
  end.

(** The archive is not open: the calls so far are the first calls. *)
Ltac solve_first :=
  repeat match goal with
  | H : _ /\ _ |- _ => destruct H
  | H : _ \/ _ |- _ => destruct H
  end;
  repeat match goal with
  | H : effects ?s = _ |- context [effects ?s] => rewrite H
  end;
  unfold open_call, ensure_call in *;
  try done;
  first
    [ split; [congruence|]; auto
    | split; [done|]; auto
    | eexists; split; [reflexivity|done]
    | exists [CloseZip]; rewrite <- !app_assoc; split; reflexivity
    | auto ].

Lemma prologue_inv_extract e : prologue_inv (extract e).
Proof.
  unfold prologue_inv, prologue_order, extract, after_rimraf. unfold_engine.
  destruct (isOverwrite e) eqn:Ho; cbn; unfold ensure_call, rimraf_call; rewrite Ho; done.
Qed.

Lemma dormant_run e evs :
  phase (run (extract e) evs) <> Listening -> dormant (run (extract e) evs).
Proof.
  intros Hp.
  destruct (hi_dormant _ (handle_inv_run e evs) Hp) as (Hz & Hcb & _ & _).
  destruct (con_dormant _ (consistent_run e evs) Hp) as (Ht & _).
  done.
Qed.

Lemma step_dormant s ev :
  dormant s ->
  step s ev =
  match ev with
  | UserCancel => set_isCanceled true s
  | RimrafSettled _ | EnsureTargetSettled _ | OpenSettled _ => step s ev
  | _ => s
  end.
Proof.
  intros (Hp & Hz & Hcb & Ht).
  destruct ev; try done; unfold step, with_task, cancel, closeZip; cbn;
    rewrite ?Ht, ?Hcb, ?Hz; cbn; rewrite ?Hz; try done.
  all: by destruct (phase s).
Qed.

Lemma prologue_inv_step s ev :
  handle_inv s -> consistent s -> prologue_inv s -> prologue_inv (step s ev).
Proof.
  intros Hh Hs Hi.
  destruct (listening_or_not s) as [Hp|Hp].
  - (* the archive is open: calls are added, none of them rimraf or open *)
    destruct ev.
    1: { apply (prologue_inv_undisturbed s); [apply undisturbed_cancel|done..]. }
    4: {
      unfold step. rewrite Hp.
      destruct (_ && _); [|done].
      set (s0 := set_entriesRead _ _).
      destruct (onEntryListener s0); [|done].
      assert (H0 : prologue_inv s0) by exact Hi.
      pose proof (prologue_inv_undisturbed s0 _ (called_back_undisturbed en acts s0) Hp H0)
        as Hi'.
      pose proof (called_back_undisturbed en acts s0) as Hund.
      destruct_undisturbed Hund. cbn in Uphase.
      destruct (entry_listener_eq en acts s0) as [-> | [-> | [Hnp ->]]];
        set (s' := called_back en acts s0) in *; clearbody s'; clear H0 Hi.
      all: unfold prologue_inv, prologue_order in *; rewrite Uphase, Hp, Uenv in Hi'.
      all: clear Ueff; unfold_engine; cases; try congruence; rewrite ?Uenv.
      all: solve_later. }
    all: unfold prologue_inv, prologue_order in *; rewrite Hp in Hi.
    all: unfold_engine; rewrite ?Hp; cases; try congruence.
    all: solve_later.
  - (* before that, or after an early end *)
    assert (Hd : dormant s).
    { destruct (hi_dormant _ Hh Hp) as (Hz & Hcb & _ & _).
      destruct (con_dormant _ Hs Hp) as (Ht & _). done. }
    destruct (con_dormant _ Hs Hp) as (_ & _ & _ & _ & _ & _ & Hpend & _).
    rewrite (step_dormant s ev Hd).
    unfold prologue_inv, prologue_order in *.
    destruct ev; try done.
    all: unfold_engine; destruct (phase s) eqn:Hph; try done; cbn.
    all: try (assert (Hr : result s = Pending) by (by apply Hpend)).
    all: repeat (case_match; cbn); rewrite ?Hr; cbn; solve_first.
Qed.

Lemma prologue_inv_run e evs : prologue_order e (run (extract e) evs).
Proof.
  assert (H : handle_inv (run (extract e) evs) /\ consistent (run (extract e) evs) /\
              prologue_inv (run (extract e) evs)).
  { apply (run_invariant (fun s => handle_inv s /\ consistent s /\ prologue_inv s)).
    - intros s ev (Hh & Hs & Hi). split_and!.
      + by apply handle_inv_step.
      + by apply consistent_step.
      + by apply prologue_inv_step.
    - split_and!; [apply handle_inv_extract|apply consistent_extract|
                   apply prologue_inv_extract]. }
  destruct H as (_ & _ & H). unfold prologue_inv in H.
  by rewrite env_run, env_extract in H.
Qed.


(** ** An extraction that ends before the archive is open *)

Lemma ended_early_step s ev :
  ended_early s ->
  ended_early (step s ev) /\ effects (step s ev) = effects s /\
  result (step s ev) = result s.
Proof.
  intros (Hp & Hz & Hcb & Ht).
  rewrite (step_dormant s ev); [|by split_and!; [rewrite Hp|..]].
  unfold ended_early.
  destruct ev; cbn; rewrite ?Hp; by split_and!.
Qed.

Lemma ended_early_run evs : forall s,
  ended_early s ->
  ended_early (run s evs) /\ effects (run s evs) = effects s /\
  result (run s evs) = result s.
Proof.
  induction evs as [|ev evs IH]; intros s Hs; [done|].
  rewrite run_cons. destruct (ended_early_step s ev Hs) as (Hs' & He & Hr).
  destruct (IH _ Hs') as (? & ? & ?). split_and!; [done|congruence..].
Qed.



(** ** Success means that every entry is done *)

Lemma task_io_mono s s' t :
  env s' = env s ->
  (forall x, x ∈ effects s -> x ∈ effects s') ->
  task_io s t -> task_io s' t.
Proof.
  intros He Hf. unfold task_io, link_wanted, filePath. rewrite He.
  repeat case_match; intuition auto.
Qed.

Lemma task_io_destroy s t : task_io s t -> task_io s (destroy t).
Proof.
  unfold task_io, link_wanted, filePath, destroy, is_dir.
  destruct t as [? ? ? [] [] [] ? ?]; cbn; intuition (try done; try congruence).
Qed.

Lemma writes_accounted_extract e : writes_accounted (extract e).
Proof.
  unfold extract, after_rimraf. unfold_engine.
  repeat (cbn; case_match); constructor.
Qed.

Ltac solve_io_mono :=
  match goal with
  | Hs : Forall (task_io _) _ |- _ => eapply Forall_impl; [exact Hs|]
  end;
  let x := fresh in let Hx := fresh in
  intros x Hx; cbn; revert Hx; apply task_io_mono; cbn;
  [reflexivity | intros; elems].

Ltac solve_io :=
  try done;
  unfold writes_accounted, folders_first in *; cbn;
  rewrite ?list_alter_alter_eq;
  lazymatch goal with
  | |- Forall _ (alter _ _ _) =>
      apply Forall_alter; [solve_io_mono|];
      let x := fresh in let Hx := fresh in let Hw := fresh in
      intros x Hx Hw; simplify_eq;
      match goal with
      | Hs : Forall (task_io ?s) (tasks ?s), Hf : Forall (task_fs ?s) (tasks ?s),
        Hwf : Forall task_wf (tasks ?s), H : tasks ?s !! _ = Some ?t |- _ =>
          pose proof (Forall_lookup_1 _ _ _ _ Hs H) as Ht;
          pose proof (Forall_lookup_1 _ _ _ _ Hf H) as Htf;
          pose proof (Forall_lookup_1 _ _ _ _ Hwf H) as Htw
      end;
      clear Hw;
      unfold task_io, task_fs, task_wf, link_wanted, is_dir, filePath in *; cbn in *;
      repeat match goal with
      | H : handler ?t = _ |- _ => rewrite H in *
      | H : readStream ?t = _ |- _ => rewrite H in *
      | H : fileStream ?t = _ |- _ => rewrite H in *
      | H : asLink ?t = _ |- _ => rewrite H in *
      | H : linking ?t = _ |- _ => rewrite H in *
      end;
      cbn in *;
      repeat case_match; try done; try congruence; elems
  | |- Forall _ _ => solve_io_mono
  end.

Lemma writes_accounted_task_event s ev :
  match ev with
  | FolderSettled _ _ | StreamSettled _ _ | ReadData _ _ | ReadEnd _
  | ReadError _ _ | WriteClose _ | WriteError _ _ | SymlinkSettled _ _ => True
  | _ => False
  end ->
  consistent s -> folders_first s -> writes_accounted s ->
  writes_accounted (step s ev).
Proof.
  intros Hev Hc Hff Hs. pose proof (con_tasks _ Hc) as Hwf. clear Hc.
  destruct ev; try done.
  all: unfold_engine; cases; try done.
  all: solve_io.
Qed.

Lemma writes_accounted_undisturbed s s' :
  undisturbed s s' -> writes_accounted s -> writes_accounted s'.
Proof.
  intros Hund Hs. destruct_undisturbed Hund. unfold writes_accounted in *.
  destruct Ueff as (es & Hes & _).
  assert (Hmono : Forall (task_io s') (tasks s)).
  { eapply Forall_impl; [exact Hs|]. intros t. apply task_io_mono; [done|].
    intros x Hx. rewrite Hes. apply elem_of_app. by left. }
  clear Hs. induction Utasks as [|t t' l l' Ht _ IH]; [done|].
  inversion Hmono; subst. constructor; [|by apply IH].
  destruct Ht as [->| ->]; [done|]. by apply task_io_destroy.
Qed.

Lemma writes_accounted_reader_event s ev :
  match ev with
  | RimrafSettled _ | EnsureTargetSettled _ | OpenSettled _
  | ReaderError _ | ReaderClose => True
  | _ => False
  end ->
  writes_accounted s -> writes_accounted (step s ev).
Proof.
  intros Hev Hs.
  destruct ev; try done.
  all: unfold_engine; cases; try done.
  all: solve_io.
Qed.

Lemma writes_accounted_entry s en acts :
  writes_accounted s -> writes_accounted (step s (EntryRead en acts)).
Proof.
  intros Hs. unfold step.
  destruct (phase s) eqn:Hph; try done.
  destruct (_ && _); [|done].
  set (s0 := set_entriesRead _ _).
  assert (H0 : writes_accounted s0) by exact Hs.
  destruct (onEntryListener s0); [|done].
  destruct (entry_listener_cases en acts s0) as (s' & Hund & Hcase).
  pose proof (writes_accounted_undisturbed _ _ Hund H0) as Hs'.
  clear Hs H0.
  destruct Hcase as [-> | [-> | [Hnp ->]]]; unfold_engine; cases.
  all: unfold writes_accounted in *; cbn.
  all: apply Forall_app; split; [solve_io_mono|].
  all: repeat constructor; unfold task_io, is_dir, filePath; cbn; try done.
Qed.

Lemma writes_accounted_step s ev :
  consistent s -> folders_first s -> writes_accounted s ->
  writes_accounted (step s ev).
Proof.
  intros Hc Hff Hs. destruct ev.
  - eapply writes_accounted_undisturbed; [apply undisturbed_cancel|done].
  - by apply writes_accounted_reader_event.
  - by apply writes_accounted_reader_event.
  - by apply writes_accounted_reader_event.
  - by apply writes_accounted_entry.
  - by apply writes_accounted_reader_event.
  - by apply writes_accounted_reader_event.
  - by apply writes_accounted_task_event.
  - by apply writes_accounted_task_event.
  - by apply writes_accounted_task_event.
  - by apply writes_accounted_task_event.
  - by apply writes_accounted_task_event.
  - by apply writes_accounted_task_event.
  - by apply writes_accounted_task_event.
  - by apply writes_accounted_task_event.
Qed.

Lemma writes_accounted_run e evs : writes_accounted (run (extract e) evs).
Proof.
  assert (H : consistent (run (extract e) evs) /\ folders_first (run (extract e) evs) /\
              writes_accounted (run (extract e) evs)); [|apply H].
  apply (run_invariant (fun s => consistent s /\ folders_first s /\ writes_accounted s)).
  - intros s ev (Hc & Hff & Hs). split_and!.
    + by apply consistent_step.
    + by apply folders_first_step.
    + by apply writes_accounted_step.
  - split_and!; [apply consistent_extract|apply folders_first_extract|
                 apply writes_accounted_extract].
Qed.

Lemma tally_all {A} (p : A -> bool) (l : list A) :
  tally p l = length l -> Forall (fun x => p x = true) l.
Proof.
  induction l as [|a l IH]; cbn; [done|].
  pose proof (tally_le_length p l) as Hle.
  destruct (p a) eqn:Ha; [|lia].
  intros H. constructor; [done|]. apply IH. lia.
Qed.


(** ** Files and links are made by the test of writeEntryToFile *)

Lemma kept_refl t : kept t t.
Proof. done. Qed.

Lemma lookup_alter_kept (f : Task -> Task) i (l : list Task) j t :
  (forall x, kept x (f x)) ->
  l !! j = Some t -> exists t', alter f i l !! j = Some t' /\ kept t t'.
Proof.
  intros Hf Hl. destruct (decide (i = j)) as [->|Hne].
  - exists (f t). by rewrite list_lookup_alter_eq, Hl.
  - exists t. by rewrite list_lookup_alter_ne.
Qed.

Lemma lookup_same_run_kept l l' j t :
  Forall2 same_run l l' ->
  l !! j = Some t -> exists t', l' !! j = Some t' /\ kept t t'.
Proof.
  intros H. revert j. induction H as [|x x' l l' Hx _ IH]; intros [|j] Hl; cbn in *;
    try done.
  - injection Hl as ->. exists x'. split; [done|].
    destruct Hx as [->| ->]; [done|]. by destruct t as [? ? ? ? []].
  - by apply IH.
Qed.

Ltac solve_kept :=
  cbn; rewrite ?list_alter_alter_eq;
  first
    [ eexists; split; [eassumption|apply kept_refl]
    | apply lookup_alter_kept; [by intros []|assumption] ].

(** Runs keep their place, their entry and their name. *)
Lemma kept_persist s ev j t :
  tasks s !! j = Some t ->
  exists t', tasks (step s ev) !! j = Some t' /\ kept t t'.
Proof.
  intros Hj. destruct ev.
  1: { cbn. eapply lookup_same_run_kept; [|exact Hj].
       apply (und_tasks _ _ (undisturbed_cancel s)). }
  4: {
    unfold step. destruct (phase s) eqn:Hph; try solve_kept.
    destruct (_ && _); [|solve_kept].
    set (s0 := set_entriesRead _ _).
    destruct (onEntryListener s0) eqn:Hl; [|solve_kept].
    destruct (entry_listener_cases en acts s0) as (s' & Hund & Hcase).
    destruct_undisturbed Hund.
    cbn in Utasks.
    destruct (lookup_same_run_kept _ _ _ _ Utasks Hj) as (t' & Ht' & Hn).
    destruct Hcase as [-> | [-> | [Hnp ->]]]; unfold_engine; cases.
    all: exists t'; split; [|done]; by apply lookup_app_l_Some. }
  all: unfold_engine; cases; solve_kept.
Qed.

Lemma write_of_kept s s' x :
  env s' = env s ->
  (forall j t, tasks s !! j = Some t -> exists t', tasks s' !! j = Some t' /\ kept t t') ->
  write_of s x -> write_of s' x.
Proof.
  intros He Hk. unfold write_of, is_dir, filePath, link_wanted. rewrite He.
  destruct x; try done.
  - intros (t & Ht & Hd & -> & -> & Hl).
    destruct (Hk _ _ Ht) as (t' & Ht' & Hn & Hen).
    exists t'. rewrite Hn, Hen. by split_and!.
  - intros (i & t & Ht & Hd & -> & Hl).
    destruct (Hk _ _ Ht) as (t' & Ht' & Hn & Hen).
    exists i, t'. rewrite Hn, Hen. by split_and!.
Qed.

Lemma silent_origin s ev es x :
  forallb silent es = true -> x ∈ es -> write_origin s ev x.
Proof.
  intros Hes Hx. pose proof (silent_elem _ _ Hes Hx). by destruct x.
Qed.

Ltac solve_origin :=
  rewrite ?elem_of_app, ?elem_of_cons, ?elem_of_nil;
  let Hin := fresh in
  intros Hin;
  repeat match goal with
  | H : _ \/ _ |- _ => destruct H
  | H : False |- _ => destruct H
  end;
  subst;
  first
    [ by left
    | right; cbn; first
        [ done
        | split; [done|]; eexists; split_and!; try done; try eassumption;
          unfold link_wanted; cbn; done
        | eexists _, _; split_and!; try done; try eassumption; done ] ].

(** What an event adds to the calls. *)
Lemma write_origins s ev x :
  x ∈ effects (step s ev) -> x ∈ effects s \/ write_origin s ev x.
Proof.
  destruct ev.
  1: { cbn.
       destruct (und_effects _ _ (undisturbed_cancel s)) as (es & -> & Hsil).
       intros [?|Hin]%elem_of_app; [by left|]. right. by eapply silent_origin. }
  4: {
    unfold step. destruct (phase s) eqn:Hph; try (by left).
    destruct (_ && _); [|by left].
    set (s0 := set_entriesRead _ _).
    destruct (onEntryListener s0) eqn:Hl; [|by left].
    destruct (entry_listener_cases en acts s0) as (s' & Hund & Hcase).
    destruct_undisturbed Hund.
    destruct Ueff as (es & Hes & Hsil). cbn in Hes.
    assert (Hs' : x ∈ effects s' -> x ∈ effects s \/ write_origin s (EntryRead en acts) x).
    { rewrite Hes. intros [?|Hin]%elem_of_app; [by left|]. right.
      by eapply silent_origin. }
    clear Ucb.
    destruct Hcase as [-> | [-> | [Hnp ->]]]; unfold_engine; cases.
    all: rewrite ?elem_of_app, ?elem_of_cons, ?elem_of_nil.
    all: intros Hin;
      repeat match goal with
      | H : _ \/ _ |- _ => destruct H
      | H : False |- _ => destruct H
      end; subst; auto.
    all: right; done. }
  all: unfold_engine; cases; try (by left).
  all: solve_origin.
Qed.

Lemma writes_justified_step s ev :
  folders_first s -> writes_accounted s ->
  writes_justified s -> writes_justified (step s ev).
Proof.
  intros Hff Hio Hs x Hin.
  destruct (write_origins s ev x Hin) as [Hold|Hnew].
  - apply (write_of_kept s); [apply env_step| |by apply Hs].
    intros j t. apply kept_persist.
  - destruct x; try done; cbn in Hnew.
    + destruct Hnew as (-> & t & Ht & Hh & -> & -> & Hl).
      destruct (kept_persist s (StreamSettled i None) i t Ht) as (t' & Ht' & Hn & He).
      pose proof (Forall_lookup_1 _ _ _ _ Hff Ht) as Hfs.
      unfold task_fs in Hfs. rewrite Hh in Hfs.
      exists t'. unfold is_dir, filePath, link_wanted in *.
      rewrite Hn, He, env_step. split_and!; try done.
      destruct (ends_with_slash (decodeEntryFileName t)); [by destruct Hfs|done].
    + destruct Hnew as (i & t & -> & Ht & Hr & Hl & -> & ->).
      destruct (kept_persist s (ReadEnd i) i t Ht) as (t' & Ht' & Hn & He).
      pose proof (Forall_lookup_1 _ _ _ _ Hio Ht) as Hti.
      unfold task_io in Hti. rewrite Hr, Hl in Hti. destruct Hti as (Hd & Hw & _).
      exists i, t'. unfold is_dir, filePath, link_wanted in *.
      rewrite Hn, He, env_step. by split_and!.
Qed.

Lemma writes_justified_run e evs : writes_justified (run (extract e) evs).
Proof.
  assert (H : (consistent (run (extract e) evs) /\ folders_first (run (extract e) evs) /\
               writes_accounted (run (extract e) evs)) /\
              writes_justified (run (extract e) evs)); [|apply H].
  apply (run_invariant
           (fun s => (consistent s /\ folders_first s /\ writes_accounted s) /\
                     writes_justified s)).
  - intros s ev ((Hc & Hff & Hio) & Hs). split_and!.
    + by apply consistent_step.
    + by apply folders_first_step.
    + by apply writes_accounted_step.
    + by apply writes_justified_step.
  - split_and!; [apply consistent_extract|apply folders_first_extract|
                 apply writes_accounted_extract|].
    intros x. unfold extract, after_rimraf. unfold_engine.
    repeat (cbn; case_match); cbn;
      rewrite ?elem_of_cons, ?elem_of_nil; intros Hx; destruct_or?; by subst.
Qed.

(** X15. Whatever the events: a write stream is only ever created for the run
    of a file entry, on the path of that entry under the target folder and
    with the mode that modeFromEntry computes for it, and never for an entry
    that is a symbolic link unless symlinkToFile() holds; symlink is only ever
    called for the run of a file entry that is a symbolic link, on the path of
    that entry, and never when symlinkToFile() holds. *)
Theorem writes_follow_the_test (e : Env) (evs : list Event) :
  let s := run (extract e) evs in
  (forall i p mode,
     CreateWriteStream i p mode ∈ effects s ->
     exists t,
       tasks s !! i = Some t /\ is_dir t = false /\
       p = Join (Folder (targetFolder e)) (decodeEntryFileName t) /\
       mode = modeFromEntry (entry t) /\
       (isSymlink mode = false \/ symlinkToFile e = true)) /\
  (forall linkContent p,
     Symlink linkContent p ∈ effects s ->
     symlinkToFile e = false /\
     exists i t,
       tasks s !! i = Some t /\ is_dir t = false /\
       p = Join (Folder (targetFolder e)) (decodeEntryFileName t) /\
       isSymlink (modeFromEntry (entry t)) = true).
Proof.
  intros s. pose proof (writes_justified_run e evs) as Hs.
  pose proof (env_run evs (extract e)) as He. rewrite env_extract in He.
  fold s in Hs, He. clearbody s. split.
  - intros i p mode Hin. destruct (Hs _ Hin) as (t & Ht & Hd & -> & -> & Hl).
    exists t. unfold filePath, link_wanted in *. rewrite He in *.
    split_and!; try done.
    apply andb_false_iff in Hl as [Hl|Hl]; [by left|right].
    by apply negb_false_iff.
  - intros c p Hin. destruct (Hs _ Hin) as (i & t & Ht & Hd & -> & Hl).
    unfold filePath, link_wanted in *. rewrite He in *.
    apply andb_true_iff in Hl as [Hl1 Hl2]. apply negb_true_iff in Hl2.
    split; [done|]. exists i, t. by split_and!.
Qed.

(** ** The callback is called once for each entry, with its name *)

Arguments names : simpl never.
Arguments stored_names : simpl never.
Arguments with_count : simpl never.

Lemma names_snoc l t :
  names (l ++ [t]) = names l ++ [decodeEntryFileName t] /\
  stored_names (l ++ [t]) = stored_names l ++ [replace_backslash (fileName (entry t))].
Proof. unfold names, stored_names. by rewrite !fmap_app. Qed.

Lemma with_count_snoc n l name :
  with_count n (l ++ [name]) = with_count n l ++ [(name, n)].
Proof. unfold with_count. by rewrite fmap_app. Qed.

Lemma onEntry_calls_app es1 es2 :
  onEntry_calls (es1 ++ es2) = onEntry_calls es1 ++ onEntry_calls es2.
Proof.
  induction es1 as [|x es1 IH]; cbn; [done|]. destruct x; cbn; by rewrite ?IH.
Qed.

Lemma names_alter (f : Task -> Task) i l :
  (forall x, kept x (f x)) ->
  names (alter f i l) = names l /\ stored_names (alter f i l) = stored_names l.
Proof.
  intros Hf. unfold names, stored_names.
  revert i. induction l as [|a l IH]; intros [|i]; cbn; try done.
  - destruct (Hf a) as [-> ->]. done.
  - destruct (IH i) as [-> ->]. done.
Qed.

Lemma names_same_run l l' :
  Forall2 same_run l l' -> names l' = names l /\ stored_names l' = stored_names l.
Proof.
  unfold names, stored_names.
  induction 1 as [|t t' l l' Ht _ [IH1 IH2]]; cbn; [done|].
  rewrite IH1, IH2. destruct Ht as [->| ->]; [done|]. by destruct t as [? ? ? ? []].
Qed.

Lemma cancel_onEntry_list s :
  onEntry_calls (effects (cancel s)) = onEntry_calls (effects s).
Proof.
  unfold cancel, invoke_cancelCallback. unfold_engine.
  repeat (cbn; case_match); cbn; rewrite ?onEntry_calls_app; cbn;
    by rewrite ?app_nil_r.
Qed.

(** What the callback of an entry leaves behind. *)
Lemma called_back_calls en acts s :
  let name := replace_backslash (fileName en) in
  let s' := called_back en acts s in
  onEntry_calls (effects s') =
    onEntry_calls (effects s) ++
    (if has_onEntry (env s) then [(name, entryCount (entryEvent s))] else []) /\
  entryName (entryEvent s') = name /\
  entryCount (entryEvent s') = entryCount (entryEvent s).
Proof.
  intros name s'. unfold s', called_back, onEntryCallback, has_onEntry. fold name.
  set (s0 := set_entryEvent _ s).
  assert (Hcb : forall calls s1,
            onEntry_calls (effects s1) = calls /\
            entryName (entryEvent s1) = name /\
            entryCount (entryEvent s1) = entryCount (entryEvent s) ->
            onEntry_calls (effects (fst (callback acts s1))) = calls /\
            entryName (entryEvent (fst (callback acts s1))) = name /\
            entryCount (entryEvent (fst (callback acts s1))) = entryCount (entryEvent s)).
  { intros calls. clear s0 s'.
    induction acts as [|[] acts IH]; intros s1 H1; cbn; try done.
    - by apply IH.
    - apply IH. by rewrite cancel_onEntry_list, cancel_entryEvent. }
  cbn. destruct (options (env s)) as [o|]; [|by rewrite app_nil_r].
  destruct (onEntry o); [|by rewrite app_nil_r].
  apply Hcb. cbn. by rewrite onEntry_calls_app.
Qed.

Lemma callbacks_match_extract e : callbacks_match (extract e).
Proof.
  unfold extract, after_rimraf. unfold_engine.
  repeat (cbn; case_match); constructor; unfold expected_calls; cbn; try done.
  all: by destruct (has_onEntry e).
Qed.

Ltac solve_cm :=
  unfold expected_calls in *; cbn in *;
  rewrite ?list_alter_alter_eq in *;
  repeat match goal with
  | |- context [names (alter ?f ?i ?l)] =>
      rewrite (proj1 (names_alter f i l ltac:(by intros [])))
  | |- context [stored_names (alter ?f ?i ?l)] =>
      rewrite (proj2 (names_alter f i l ltac:(by intros [])))
  end;
  rewrite ?onEntry_calls_app; cbn; rewrite ?app_nil_r;
  try done; auto; try congruence; try (intros; nat_facts; congruence).

Lemma callbacks_match_task_event s ev :
  match ev with
  | FolderSettled _ _ | StreamSettled _ _ | ReadData _ _ | ReadEnd _
  | ReadError _ _ | WriteClose _ | WriteError _ _ | SymlinkSettled _ _ => True
  | _ => False
  end ->
  callbacks_match s -> callbacks_match (step s ev).
Proof.
  intros Hev [Hcalls Hnames Hcount Hlast].
  destruct ev; try done.
  all: unfold_engine; cases; try done.
  all: constructor; solve_cm.
Qed.

Lemma callbacks_match_reader_event s ev :
  match ev with
  | RimrafSettled _ | EnsureTargetSettled _ | OpenSettled _
  | ReaderError _ | ReaderClose => True
  | _ => False
  end ->
  consistent s -> callbacks_match s -> callbacks_match (step s ev).
Proof.
  intros Hev Hs [Hcalls Hnames Hcount Hlast].
  destruct ev; try done.
  all: unfold_engine; cases; try done.
  all: destruct Hs as [Hd _ _ _ _ _ _]; use_dormant.
  all: constructor; solve_cm.
  all: try (rewrite Ht in *; cbn in *; by destruct (has_onEntry (env s))).
Qed.

Lemma callbacks_match_cancel s : callbacks_match s -> callbacks_match (cancel s).
Proof.
  intros [Hcalls Hnames Hcount Hlast].
  pose proof (undisturbed_cancel s) as Hund. destruct_undisturbed Hund.
  destruct (names_same_run _ _ Utasks) as [Hn Hsn].
  constructor; unfold expected_calls.
  - by rewrite cancel_onEntry_list, Uenv, Utotal, Hn.
  - by rewrite Hn, Hsn.
  - by rewrite Ulis, cancel_entryEvent, Utotal.
  - by rewrite Hn, cancel_entryEvent.
Qed.

Lemma callbacks_match_entry s en acts :
  callbacks_match s -> callbacks_match (step s (EntryRead en acts)).
Proof.
  intros Hs. unfold step.
  destruct (phase s) eqn:Hph; try done.
  destruct (_ && _); [|by destruct Hs].
  set (s0 := set_entriesRead _ _).
  destruct (onEntryListener s0) eqn:Hlis; [|by destruct Hs].
  destruct Hs as [Hcalls Hnames Hcount Hlast]. specialize (Hcount Hlis).
  pose proof (called_back_undisturbed en acts s0) as Hund.
  destruct (called_back_calls en acts s0) as (Hc' & Hname' & Hcount').
  destruct_undisturbed Hund.
  destruct (names_same_run _ _ Utasks) as [Hn Hsn].
  cbn in *. clear Ueff Ucb Utasks.
  destruct (entry_listener_eq en acts s0) as [-> | [-> | [Hnp ->]]];
    set (s' := called_back en acts s0) in *; clearbody s'.
  all: unfold_engine; cases.
  all: constructor; unfold expected_calls in *; cbn.
  all: rewrite ?(proj1 (names_snoc _ _)), ?(proj2 (names_snoc _ _)); cbn.
  all: rewrite ?onEntry_calls_app, ?last_snoc, ?with_count_snoc; cbn;
    rewrite ?app_nil_r.
  all: rewrite ?Hc', ?Hcalls, ?Hn, ?Hsn, ?Uenv, ?Utotal, ?Hcount, ?Hnames.
  all: try (intros; congruence).
  all: destruct (has_onEntry (env s)); cbn; try done.
  all: congruence.
Qed.

Lemma callbacks_match_step s ev :
  consistent s -> callbacks_match s -> callbacks_match (step s ev).
Proof.
  intros Hs Hc. destruct ev.
  - by apply callbacks_match_cancel.
  - by apply callbacks_match_reader_event.
  - by apply callbacks_match_reader_event.
  - by apply callbacks_match_reader_event.
  - by apply callbacks_match_entry.
  - by apply callbacks_match_reader_event.
  - by apply callbacks_match_reader_event.
  - by apply callbacks_match_task_event.
  - by apply callbacks_match_task_event.
  - by apply callbacks_match_task_event.
  - by apply callbacks_match_task_event.
  - by apply callbacks_match_task_event.
  - by apply callbacks_match_task_event.
  - by apply callbacks_match_task_event.
  - by apply callbacks_match_task_event.
Qed.

Lemma callbacks_match_run e evs : callbacks_match (run (extract e) evs).
Proof.
  assert (H : consistent (run (extract e) evs) /\ callbacks_match (run (extract e) evs));
    [|apply H].
  apply (run_invariant (fun s => consistent s /\ callbacks_match s)).
  - intros s ev [Hs Hc]. split; [by apply consistent_step|by apply callbacks_match_step].
  - split; [apply consistent_extract|apply callbacks_match_extract].
Qed.


(** ** cancel() during a write *)

Lemma tally_two {A} (p : A -> bool) (l : list A) i j a b :
  l !! i = Some a -> l !! j = Some b -> i <> j -> p a = true -> p b = true ->
  2 <= tally p l.
Proof.
  revert i j. induction l as [|x l IH]; intros [|i] [|j] Hi Hj Hne Ha Hb; cbn in *;
    try done.
  - injection Hi as ->. rewrite Ha.
    assert (0 < tally p l) by (apply tally_elem; exists b; split; [|done];
                               by eapply list_elem_of_lookup_2).
    lia.
  - injection Hj as ->. rewrite Hb.
    assert (0 < tally p l) by (apply tally_elem; exists a; split; [|done];
                               by eapply list_elem_of_lookup_2).
    lia.
  - assert (2 <= tally p l) by (eapply (IH i j); eauto). destruct (p x); lia.
Qed.

(** While a run waits for its stream, no other run has an open stream. *)
Lemma one_stream s i j t t' :
  consistent s ->
  tasks s !! i = Some t -> may_advance t = true ->
  tasks s !! j = Some t' -> may_advance t' = true ->
  i = j.
Proof.
  intros Hs Hi Ha Hj Hb. destruct (decide (i = j)) as [|Hne]; [done|].
  pose proof (tally_two may_advance _ _ _ _ _ Hi Hj Hne Ha Hb).
  pose proof (con_single _ Hs). lia.
Qed.

Lemma callback_tracks_extract e : callback_tracks (extract e).
Proof.
  intros i t. unfold extract, after_rimraf. unfold_engine.
  by repeat (cbn; case_match).
Qed.

Lemma lookup_same_run l l' i t' :
  Forall2 same_run l l' -> l' !! i = Some t' ->
  exists t, l !! i = Some t /\ readStream t' = readStream t.
Proof.
  intros H. revert i. induction H as [|x x' l l' Hx _ IH]; intros [|i] Hl; cbn in *;
    try done.
  - injection Hl as <-. exists x. split; [done|].
    destruct Hx as [->| ->]; [done|]. by destruct x as [? ? ? ? []].
  - by apply IH.
Qed.

Lemma callback_tracks_undisturbed s s' :
  undisturbed s s' -> callback_tracks s -> callback_tracks s'.
Proof.
  intros Hund Hs i t' Ht' Hr Hc. destruct_undisturbed Hund.
  destruct (lookup_same_run _ _ _ _ Utasks Ht') as (t & Ht & Hrs).
  assert (Hc0 : isCanceled s = false).
  { destruct (isCanceled s); [|done]. rewrite Ucanc in Hc; done. }
  destruct Ucb as [->|[_ ?]]; [|congruence].
  apply (Hs i t); congruence.
Qed.

Ltac split_lookup :=
  repeat match goal with
  | H : alter ?f ?i ?l !! ?j = Some _ |- _ =>
      destruct (decide (i = j)) as [?|?];
      [ subst; rewrite list_lookup_alter_eq in H
      | rewrite list_lookup_alter_ne in H by done ]
  | H : (_ ++ [_]) !! _ = Some _ |- _ =>
      apply lookup_snoc_Some in H as [[? H]|[? H]]
  end.

Lemma callback_tracks_task_event s ev :
  match ev with
  | FolderSettled _ _ | StreamSettled _ _ | ReadData _ _ | ReadEnd _
  | ReadError _ _ | WriteClose _ | WriteError _ _ | SymlinkSettled _ _ => True
  | _ => False
  end ->
  consistent s -> callback_tracks s -> callback_tracks (step s ev).
Proof.
  intros Hev Hc Hs.
  destruct ev; try done.
  all: unfold_engine; cases; try done.
  all: intros j t' Hj Hr Hcanc; cbn in *; rewrite ?list_alter_alter_eq in *.
  all: split_lookup.
  all: repeat match goal with
       | H : _ <$> ?x = Some _, H' : ?x = Some _ |- _ => rewrite H' in H; cbn in H
       | H : Some _ = Some _ |- _ => injection H as <-
       end; cbn in *; try done; try congruence.
  all: try (eapply Hs; eauto; fail).
  all: try (f_equal; symmetry; eapply (one_stream s); eauto;
            unfold may_advance; repeat case_match; congruence).
Qed.

Lemma callback_tracks_reader_event s ev :
  match ev with
  | RimrafSettled _ | EnsureTargetSettled _ | OpenSettled _
  | ReaderError _ | ReaderClose => True
  | _ => False
  end ->
  callback_tracks s -> callback_tracks (step s ev).
Proof.
  intros Hev Hs.
  destruct ev; try done.
  all: unfold_engine; cases; try done.
  all: intros j t' Hj Hr Hcanc; cbn in *; try congruence.
  all: by eapply Hs.
Qed.

Lemma callback_tracks_entry s en acts :
  callback_tracks s -> callback_tracks (step s (EntryRead en acts)).
Proof.
  intros Hs. unfold step.
  destruct (phase s) eqn:Hph; try done.
  destruct (_ && _); [|done].
  set (s0 := set_entriesRead _ _).
  assert (H0 : callback_tracks s0) by exact Hs.
  destruct (onEntryListener s0); [|done].
  destruct (entry_listener_cases en acts s0) as (s' & Hund & Hcase).
  pose proof (callback_tracks_undisturbed _ _ Hund H0) as Hs'.
  clear Hs H0 Hund.
  destruct Hcase as [-> | [-> | [Hnp ->]]]; unfold_engine; cases.
  all: intros j t' Hj Hr Hcanc; cbn in *.
  all: split_lookup; subst; try done.
  all: by eapply Hs'.
Qed.

Lemma callback_tracks_step s ev :
  consistent s -> callback_tracks s -> callback_tracks (step s ev).
Proof.
  intros Hc Hs. destruct ev.
  - intros i t _ _. cbn. by rewrite isCanceled_cancel.
  - by apply callback_tracks_reader_event.
  - by apply callback_tracks_reader_event.
  - by apply callback_tracks_reader_event.
  - by apply callback_tracks_entry.
  - by apply callback_tracks_reader_event.
  - by apply callback_tracks_reader_event.
  - by apply callback_tracks_task_event.
  - by apply callback_tracks_task_event.
  - by apply callback_tracks_task_event.
  - by apply callback_tracks_task_event.
  - by apply callback_tracks_task_event.
  - by apply callback_tracks_task_event.
  - by apply callback_tracks_task_event.
  - by apply callback_tracks_task_event.
Qed.

Lemma callback_tracks_run e evs : callback_tracks (run (extract e) evs).
Proof.
  assert (H : consistent (run (extract e) evs) /\ callback_tracks (run (extract e) evs));
    [|apply H].
  apply (run_invariant (fun s => consistent s /\ callback_tracks s)).
  - intros s ev [Hs Hc]. split; [by apply consistent_step|by apply callback_tracks_step].
  - split; [apply consistent_extract|apply callback_tracks_extract].
Qed.


(** ** No success after a failure *)

Lemma lost_destroy t : lost (destroy t) = lost t.
Proof. by destruct t as [? ? ? ? []]. Qed.

Lemma lookup_same_run_lost l l' j t :
  Forall2 same_run l l' ->
  l !! j = Some t -> lost t = true -> exists t', l' !! j = Some t' /\ lost t' = true.
Proof.
  intros H. revert j. induction H as [|x x' l l' Hx _ IH]; intros [|j] Hl Ht; cbn in *;
    try done.
  - injection Hl as ->. exists x'. split; [done|].
    destruct Hx as [->| ->]; [done|]. by rewrite lost_destroy.
  - by apply IH.
Qed.

Ltac solve_lost :=
  cbn; rewrite ?list_alter_alter_eq;
  first
    [ eexists; split; [eassumption|assumption]
    | match goal with
      | Hj : ?l !! ?j = Some ?t |- exists t', alter ?f ?i ?l !! ?j = Some t' /\ _ =>
          destruct (decide (i = j)) as [?|?];
          [ subst; rewrite list_lookup_alter_eq, Hj; cbn; eexists; split; [reflexivity|];
            unfold lost in *; cbn;
            repeat match goal with
            | H : tasks _ !! _ = Some _, H' : tasks _ !! _ = Some _ |- _ =>
                rewrite H in H'; injection H' as ->
            | H : handler ?t = _ |- _ => rewrite H in *
            end; done
          | rewrite list_lookup_alter_ne by done; eexists; split; [eassumption|assumption] ]
      end ].

(** A lost run stays lost. *)
Lemma lost_persist s ev j t :
  tasks s !! j = Some t -> lost t = true ->
  exists t', tasks (step s ev) !! j = Some t' /\ lost t' = true.
Proof.
  intros Hj Hl. destruct ev.
  1: { cbn. eapply lookup_same_run_lost; [|exact Hj|exact Hl].
       apply (und_tasks _ _ (undisturbed_cancel s)). }
  4: {
    unfold step. destruct (phase s) eqn:Hph; try solve_lost.
    destruct (_ && _); [|solve_lost].
    set (s0 := set_entriesRead _ _).
    destruct (onEntryListener s0) eqn:Hlis; [|solve_lost].
    destruct (entry_listener_cases en acts s0) as (s' & Hund & Hcase).
    destruct_undisturbed Hund.
    cbn in Utasks.
    destruct (lookup_same_run_lost _ _ _ _ Utasks Hj Hl) as (t' & Ht' & Hn).
    destruct Hcase as [-> | [-> | [Hnp ->]]]; unfold_engine; cases.
    all: exists t'; split; [|done]; by apply lookup_app_l_Some. }
  all: unfold_engine; cases; solve_lost.
Qed.

Lemma lost_persist_run evs : forall s j t,
  tasks s !! j = Some t -> lost t = true ->
  exists t', tasks (run s evs) !! j = Some t' /\ lost t' = true.
Proof.
  induction evs as [|ev evs IH]; intros s j t Hj Hl; [by exists t|].
  rewrite run_cons. destruct (lost_persist s ev j t Hj Hl) as (t' & Ht' & Hl').
  by apply (IH _ j t').
Qed.

(** X18. Once the callback of an entry has thrown, or an entry has failed, the
    extraction never succeeds: whatever happens afterwards, the promise is
    pending or rejected. *)
Theorem no_success_after_failure (e : Env) (evs0 : list Event) (i : nat) (t : Task)
    (Ht : tasks (run (extract e) evs0) !! i = Some t)
    (Hl : handler t = Thrown \/ handler t = Caught) :
  forall evs,
    let s' := run (extract e) (evs0 ++ evs) in
    result s' = Pending \/ exists err, result s' = Rejected err.
Proof.
  intros evs s'.
  assert (Hlost : lost t = true) by (unfold lost; by destruct Hl as [-> | ->]).
  destruct (lost_persist_run evs _ i t Ht Hlost) as (t' & Ht' & Hl').
  rewrite <- run_app in Ht'. fold s' in Ht'.
  pose proof (consistent_run e (evs0 ++ evs)) as Hs. fold s' in Hs. clearbody s'.
  assert (Hnr : result s' <> Resolved).
  { apply (pending_not_resolved s' i t' Hs Ht').
    unfold lost, accounted in *. by destruct (handler t'). }
  destruct (result s') as [| |err]; [by left|done|right; by exists err].
Qed.

(** ** cancel() settles the promise when the reader closes *)

Lemma closing_cancel s : phase s = Listening -> onceClose s = true -> closing (cancel s).
Proof.
  intros Hp Hc. pose proof (undisturbed_cancel s) as Hund. destruct_undisturbed Hund.
  unfold closing. rewrite Uphase, UonceC, isCanceled_cancel. split_and!; auto.
Qed.

Lemma closing_undisturbed s s' : undisturbed s s' -> closing s -> closing s'.
Proof.
  intros Hund (Hp & Hc & Hr). destruct_undisturbed Hund.
  unfold closing. rewrite Uphase, UonceC, Uresult. split_and!; auto.
Qed.

Lemma closing_step s ev : closing s -> closing (step s ev).
Proof.
  intros Hs. destruct ev.
  1: { by apply (closing_undisturbed s), Hs; apply undisturbed_cancel. }
  4: {
    unfold step. destruct Hs as (Hp & Hc & Hr). rewrite Hp.
    destruct (_ && _); [|done].
    set (s0 := set_entriesRead _ _).
    assert (H0 : closing s0) by done.
    destruct (onEntryListener s0); [|done].
    destruct (entry_listener_cases en acts s0) as (s' & Hund & Hcase).
    destruct (closing_undisturbed _ _ Hund H0) as (Hp' & Hc' & Hr').
    clear Hund H0.
    destruct Hcase as [-> | [-> | [Hnp ->]]]; unfold closing; unfold_engine; cases.
    all: split_and!; try done.
    all: destruct Hr' as [?|?]; auto; right; congruence. }
  all: destruct Hs as (Hp & Hc & Hr); unfold closing; unfold_engine;
    rewrite ?Hp; cases; rewrite ?Hp.
  all: split_and!; try done; try congruence.
  all: try (destruct Hr as [?|?]; auto; right; congruence).
  all: right; congruence.
Qed.

(** X19. After cancel() on an open archive whose close listener is still on,
    the promise does not outlive the reader's close signal: whatever happens
    in between, once the reader has signalled close the promise is settled,
    rejected with the Canceled error unless the extraction was completed
    first. *)
Theorem cancel_settles_at_close (e : Env) (evs0 : list Event)
    (Hp : phase (run (extract e) evs0) = Listening)
    (Hr : result (run (extract e) evs0) = Pending)
    (Hc : onceClose (run (extract e) evs0) = true) :
  forall evs,
    let s' := run (extract e) (evs0 ++ UserCancel :: evs ++ [ReaderClose]) in
    result s' = Rejected canceled \/ result s' = Resolved.
Proof.
  intros evs s'.
  set (s := run (extract e) evs0) in *.
  assert (Hs' : s' = step (run (cancel s) evs) ReaderClose).
  { unfold s'. rewrite run_app. fold s. rewrite run_cons. cbn [step]. apply run_snoc. }
  assert (H1 : closing (run (cancel s) evs) /\ canceled_listening (run (cancel s) evs)).
  { apply (run_invariant (fun x => closing x /\ canceled_listening x)).
    - intros x ev [? ?]. split; [by apply closing_step|by apply step_canceled_listening].
    - split; [by apply closing_cancel|].
      apply cancel_canceled_listening; [done|]. by rewrite Hr. }
  rewrite Hs'. clearbody s. clear Hs' s'.
  destruct H1 as [(Hp1 & Hc1 & Ho1) (_ & _ & Hm1)].
  set (s1 := run (cancel s) evs) in *. clearbody s1.
  unfold_engine. rewrite Hp1.
  assert (Hfin : forall x, result x = result s1 ->
                 result s1 <> Pending ->
                 result x = Rejected canceled \/ result x = Resolved).
  { intros x -> Hnp. destruct (result s1) as [| |err] eqn:Hr1; [done|by right|].
    left. cbn in Hm1. by rewrite Hm1. }
  destruct (onceClose s1) eqn:Hoc; cbn; rewrite ?Hc1; cbn.
  - destruct (result s1) eqn:Hr1; cbn; [by left|by apply Hfin; rewrite ?Hr1..].
  - destruct Ho1 as [?|Hnp]; [done|]. by apply Hfin.
Qed.

Transparent modeFromEntry isSymlink symlinkToFile.

(** ** The further properties on the sample runs *)

Lemma isSymlink_from_attributes_witness :
  isSymlink (modeFromEntry Sample.latest) = true <->
  Z.land (externalFileAttributes Sample.latest / 2 ^ 16) 61440 = 40960%Z.
Proof.
  apply (isSymlink_from_attributes Sample.latest). cbn. lia.
Defined.

Lemma modeFromEntry_zero_witness :
  modeFromEntry MoreSamples.sticky = 0%Z <->
  (externalFileAttributes MoreSamples.sticky / 2 ^ 16)%Z <> 0%Z /\
  Z.land (externalFileAttributes MoreSamples.sticky / 2 ^ 16) 61951 = 0%Z.
Proof.
  apply (modeFromEntry_zero MoreSamples.sticky). cbn. lia.
Defined.

Lemma cancel_releases_archive_witness :
  isCanceled (run (extract Sample.posix) (Sample.opened_with 1 ++ [UserCancel])) = true /\
  zipFile (run (extract Sample.posix) (Sample.opened_with 1 ++ [UserCancel])) = false /\
  CloseZip ∈ effects (run (extract Sample.posix) (Sample.opened_with 1 ++ [UserCancel])).
Proof.
  destruct (cancel_releases_archive Sample.posix (Sample.opened_with 1 ++ [UserCancel])
              eq_refl) as [Hz Hin].
  split_and!; [reflexivity|exact Hz|apply Hin; reflexivity].
Defined.

Lemma cancel_after_success_witness :
  result (run (extract Sample.posix) Sample.one_file) = Resolved /\
  isCanceled (run (extract Sample.posix) Sample.one_file) = false /\
  result (step (run (extract Sample.posix) Sample.one_file) UserCancel) = Resolved /\
  zipFile (step (run (extract Sample.posix) Sample.one_file) UserCancel) = false.
Proof.
  destruct (cancel_after_success Sample.posix Sample.one_file eq_refl eq_refl)
    as (Hr & _ & Hz & _).
  split_and!; [reflexivity|reflexivity|exact Hr|exact Hz].
Defined.

Lemma entry_failure_closes_archive_witness :
  entry_fails
    (run (extract Sample.posix) (Sample.opened_with 1 ++ [EntryRead Sample.readme []]))
    0 (FolderSettled 0 (Some Sample.eio)) Sample.eio /\
  zipFile
    (step (run (extract Sample.posix)
             (Sample.opened_with 1 ++ [EntryRead Sample.readme []]))
       (FolderSettled 0 (Some Sample.eio))) = false.
Proof.
  assert (Hf : entry_fails
                 (run (extract Sample.posix)
                    (Sample.opened_with 1 ++ [EntryRead Sample.readme []]))
                 0 (FolderSettled 0 (Some Sample.eio)) Sample.eio).
  { eexists. split; [reflexivity|]. left. split; [reflexivity|]. right. reflexivity. }
  split; [exact Hf|].
  destruct (entry_failure_closes_archive Sample.posix
              (Sample.opened_with 1 ++ [EntryRead Sample.readme []])
              0 (FolderSettled 0 (Some Sample.eio)) Sample.eio Hf eq_refl)
    as (_ & Hz & _).
  exact Hz.
Defined.





Lemma no_success_after_failure_witness :
  (exists t,
     tasks (run (extract Sample.posix) MoreSamples.thrown) !! 0 = Some t /\
     handler t = Thrown) /\
  (result (run (extract Sample.posix) (MoreSamples.thrown ++ [ReaderClose])) = Pending \/
   exists err,
     result (run (extract Sample.posix) (MoreSamples.thrown ++ [ReaderClose])) =
     Rejected err).
Proof.
  split; [eexists; split; reflexivity|].
  apply (no_success_after_failure Sample.posix MoreSamples.thrown 0
           (new_task "docs/readme.txt" Sample.readme Thrown) eq_refl
           (or_introl eq_refl) [ReaderClose]).
Defined.

Lemma cancel_settles_at_close_witness :
  phase (run (extract Sample.posix) (Sample.opened_with 1)) = Listening /\
  (result
     (run (extract Sample.posix)
        (Sample.opened_with 1 ++ UserCancel :: [ReaderError Sample.eio] ++ [ReaderClose])) =
   Rejected canceled \/
   result
     (run (extract Sample.posix)
        (Sample.opened_with 1 ++ UserCancel :: [ReaderError Sample.eio] ++ [ReaderClose])) =
   Resolved).
Proof.
  split; [reflexivity|].
  apply (cancel_settles_at_close Sample.posix (Sample.opened_with 1)
           eq_refl eq_refl eq_refl [ReaderError Sample.eio]).
Defined.
